(** * python-dag: generation-wise topological sorting of an edge set

    A shallow embedding of [dag/__init__.py] (the in-memory [DAG], its
    [TopologicalSorter] and [CycleError]) and of [dag/sqlite.py]
    ([SqliteDAG]).  Python sets are [gset]s, dictionaries are [gmap]s,
    generators are explicit state machines and loops carry fuel. *)

From Stdlib Require Import Ascii.
From stdpp Require Import gmap strings list fin_sets relations sorting.

Set Default Proof Using "Type*".

(** ** Node identifiers

    Nodes are opaque hashable values.  [CycleError.__str__] additionally
    sorts them, so they carry a decidable total order. *)

Class NodeOrder (K : Type) := {
  node_le : relation K;
  node_le_dec :: RelDecision node_le;
  node_le_po :: PartialOrder node_le;
  node_le_total :: Total node_le;
}.

Section dag.
Context `{Countable K}.

(** An edge is a pair [(source, sink)]. *)
Local Abbreviation edge := (K * K)%type.

(** ** TopologicalSorter.__iter__ and __reversed__ *)

(** [{s for _, s in graph}] *)
Definition sinks_of (graph : gset edge) : gset K := set_map snd graph.

(** [{s for s, _ in graph}] *)
Definition sources_of (graph : gset edge) : gset K := set_map fst graph.

(** Lines 40-43: sources that are the sink of no edge. *)
Definition initial_no_incoming (graph : gset edge) : gset K :=
  set_map fst (filter (λ e, e.1 ∉ sinks_of graph) graph).

(** Lines 46-52: drop the edges leaving [ready]; the next generation is
    made of their sinks that are left without an incoming edge. *)
Definition peel_forward (graph : gset edge) (ready : gset K)
    : gset edge * gset K :=
  let outgoing_edges := filter (λ e, e.1 ∈ ready) graph in
  let graph' := graph ∖ outgoing_edges in
  (graph',
   set_map snd
     (filter (λ e, set_Forall (λ e', e'.2 ≠ e.2) graph') outgoing_edges)).

(** Lines 57-60. *)
Definition initial_no_outgoing (graph : gset edge) : gset K :=
  set_map snd (filter (λ e, e.2 ∉ sources_of graph) graph).

(** Lines 63-69. *)
Definition peel_reverse (graph : gset edge) (ready : gset K)
    : gset edge * gset K :=
  let incoming_edges := filter (λ e, e.2 ∈ ready) graph in
  let graph' := graph ∖ incoming_edges in
  (graph',
   set_map fst
     (filter (λ e, set_Forall (λ e', e'.1 ≠ e.1) graph') incoming_edges)).

(** A generator object is either not started, suspended at its [yield]
    (holding the local variable of the loop), or finished. *)
Inductive gen_state :=
  | NotStarted
  | Suspended (ready : gset K)
  | Finished.

(** What one call of [next] produces. *)
Inductive gen_event :=
  | Yield (generation : gset K)
  | StopIteration
  | RaiseCycleError (members : gset edge).

(** The loop test, the [yield] and the code after the loop. *)
Definition loop_head (graph : gset edge) (ready : gset K)
    : gset edge * gen_state * gen_event :=
  if decide (ready = ∅) then
    if decide (graph = ∅) then (graph, Finished, StopIteration)
    else (graph, Finished, RaiseCycleError graph)
  else (graph, Suspended ready, Yield ready).

Definition gen_next
    (initial : gset edge → gset K)
    (peel : gset edge → gset K → gset edge * gset K)
    (graph : gset edge) (st : gen_state)
    : gset edge * gen_state * gen_event :=
  match st with
  | NotStarted => loop_head graph (initial graph)
  | Suspended ready =>
      let '(graph', ready') := peel graph ready in loop_head graph' ready'
  | Finished => (graph, Finished, StopIteration)
  end.

(** [next] on the generator of [__iter__], acting on [self.graph]. *)
Definition iter_next := gen_next initial_no_incoming peel_forward.

(** [next] on the generator of [__reversed__]. *)
Definition reversed_next := gen_next initial_no_outgoing peel_reverse.

(** [iter(sorter)] or [reversed(sorter)]. *)
Inductive direction := Forward | Reverse.

Definition direction_next (d : direction) :=
  match d with
  | Forward => iter_next
  | Reverse => reversed_next
  end.

(** How a consumer that pulls every generation ends. *)
Inductive sort_end :=
  | Completed
  | CycleError (members : gset edge)
  | OutOfFuel.

(** [for nodes in sorter: ...] collecting everything that is yielded. *)
Fixpoint exhaust
    (next : gset edge → gen_state → gset edge * gen_state * gen_event)
    (fuel : nat) (graph : gset edge) (st : gen_state)
    : list (gset K) * sort_end :=
  match fuel with
  | 0 => ([], OutOfFuel)
  | S fuel' =>
      match next graph st with
      | (graph', st', Yield g) =>
          let '(gs, e) := exhaust next fuel' graph' st' in (g :: gs, e)
      | (_, _, StopIteration) => ([], Completed)
      | (_, _, RaiseCycleError members) => ([], CycleError members)
      end
  end.

(** Enough fuel for any run over [graph]: a round either removes an edge
    or is the last one. *)
Definition enough_fuel (graph : gset edge) : nat := size graph + 3.

Definition forward_sort (graph : gset edge) : list (gset K) * sort_end :=
  exhaust iter_next (enough_fuel graph) graph NotStarted.

Definition reverse_sort (graph : gset edge) : list (gset K) * sort_end :=
  exhaust reversed_next (enough_fuel graph) graph NotStarted.

(** ** TopologicalSorter.__init__ *)

(** Lines 25-28 and 32-35: [while not children <= relevant: ...].
    [grow] recomputes [children] (resp. [parents]) from [relevant]. *)
Fixpoint closure_loop (grow : gset K → gset K) (fuel : nat)
    (relevant children : gset K) : option (gset K) :=
  match fuel with
  | 0 => None
  | S fuel' =>
      if decide (children ⊆ relevant) then Some relevant
      else
        let relevant' := relevant ∪ children in
        closure_loop grow fuel' relevant' (grow relevant')
  end.

(** [{sink for source, sink in edges if source in relevant}] *)
Definition children_of (edges : gset edge) (relevant : gset K) : gset K :=
  set_map snd (filter (λ e, e.1 ∈ relevant) edges).

(** [{source for source, sink in edges if sink in relevant}] *)
Definition parents_of (edges : gset edge) (relevant : gset K) : gset K :=
  set_map fst (filter (λ e, e.2 ∈ relevant) edges).

(** [relevant] grows strictly with every round and stays inside the
    seeds and the nodes of [edges]. *)
Definition closure_fuel (edges : gset edge) (seed : gset K) : nat :=
  size (seed ∪ sources_of edges ∪ sinks_of edges) + 2.

(** Lines 23-29. [start] is the tuple of positional arguments. *)
Definition start_filter (edges : gset edge) (start : list K)
    : option (gset edge) :=
  if decide (start = []) then Some edges
  else
    relevant ← closure_loop (children_of edges)
                 (closure_fuel edges (list_to_set start))
                 ∅ (list_to_set start);
    Some (filter (λ e, e.1 ∈ relevant) edges).

(** Lines 30-36. *)
Definition endpoint_filter (edges : gset edge) (endpoints : list K)
    : option (gset edge) :=
  if decide (endpoints = []) then Some edges
  else
    relevant ← closure_loop (parents_of edges)
                 (closure_fuel edges (list_to_set endpoints))
                 ∅ (list_to_set endpoints);
    Some (filter (λ e, e.2 ∈ relevant) edges).

(** The value stored in [self.graph]; [None] only if a closure loop ran
    out of fuel, which [closure_loop_enough] excludes. *)
Definition TopologicalSorter_init (edges : gset edge)
    (start endpoints : list K) : option (gset edge) :=
  edges' ← start_filter edges start;
  endpoint_filter edges' endpoints.

(** [edge_rel E a b]: [E] holds the edge from [a] to [b]. *)
Definition edge_rel (E : gset edge) : relation K := λ a b, (a, b) ∈ E.

(** Nodes that some seed reaches along [R]. *)
Definition reach (R : relation K) (seed : gset K) (v : K) : Prop :=
  ∃ s, s ∈ seed ∧ rtc R s v.

(** An edge lies on a path that leads from a start node to an endpoint. *)
Definition lies_on_path (E : gset edge) (start endpoints : list K)
    (e : edge) : Prop :=
  e ∈ E ∧
  (∃ s, s ∈ start ∧ rtc (edge_rel E) s e.1) ∧
  (∃ t, t ∈ endpoints ∧ rtc (edge_rel E) e.2 t).

(** ** DAG *)

(** [DAG] subclasses the builtin [set]: [add] and [discard] are the
    builtin's own. *)
Definition DAG_add (self : gset edge) (e : edge) : gset edge := self ∪ {[ e ]}.
Definition DAG_discard (self : gset edge) (e : edge) : gset edge :=
  self ∖ {[ e ]}.



(** ** Objects and aliasing

    Sets are mutable objects.  The store maps the identity of every set
    object to its current contents; [self.graph -= ...] writes to the
    object bound to [self.graph]. *)

Definition loc : Type := positive.

Record TopologicalSorter := { graph : loc }.

(** [DAG.topsort] with its positional [start] arguments and its
    [endpoints] keyword: [self] is the caller's graph
    object.  The comprehensions and [set(edges)] build a new object. *)
Definition DAG_topsort (σ : gmap loc (gset edge)) (self : loc)
    (start endpoints : list K)
    : option (gmap loc (gset edge) * TopologicalSorter) :=
  edges ← σ !! self;
  g ← TopologicalSorter_init edges start endpoints;
  let l := fresh (dom σ) in
  Some (<[l := g]> σ, {| graph := l |}).

(** One [next] on a generator obtained from the sorter [s]. *)
Definition sorter_next
    (next : gset edge → gen_state → gset edge * gen_state * gen_event)
    (σ : gmap loc (gset edge)) (s : TopologicalSorter) (st : gen_state)
    : option (gmap loc (gset edge) * gen_state * gen_event) :=
  g ← σ !! graph s;
  let '(g', st', ev) := next g st in
  Some (<[graph s := g']> σ, st', ev).

(** [n] calls of [next] on one generator over the set [g], with what
    they produce.  The consumer may stop after any [n]. *)
Fixpoint gen_run
    (next : gset edge → gen_state → gset edge * gen_state * gen_event)
    (n : nat) (g : gset edge) (st : gen_state)
    : gset edge * gen_state * list gen_event :=
  match n with
  | 0 => (g, st, [])
  | S n' =>
      let '(g', st', ev) := next g st in
      let '(g'', st'', evs) := gen_run next n' g' st' in
      (g'', st'', ev :: evs)
  end.

(** Two generators, one per sorter, pulled in the order [sched] gives:
    [true] pulls the first, [false] the second. *)
Fixpoint interleave
    (next1 next2 : gset edge → gen_state → gset edge * gen_state * gen_event)
    (sched : list bool) (σ : gmap loc (gset edge))
    (s1 : TopologicalSorter) (st1 : gen_state)
    (s2 : TopologicalSorter) (st2 : gen_state)
    : option (gmap loc (gset edge) * (gen_state * list gen_event)
              * (gen_state * list gen_event)) :=
  match sched with
  | [] => Some (σ, (st1, []), (st2, []))
  | true :: sched' =>
      '(σ', st1', ev) ← sorter_next next1 σ s1 st1;
      '(σ'', (st1'', evs1), r2) ←
        interleave next1 next2 sched' σ' s1 st1' s2 st2;
      Some (σ'', (st1'', ev :: evs1), r2)
  | false :: sched' =>
      '(σ', st2', ev) ← sorter_next next2 σ s2 st2;
      '(σ'', r1, (st2'', evs2)) ←
        interleave next1 next2 sched' σ' s1 st1 s2 st2';
      Some (σ'', r1, (st2'', ev :: evs2))
  end.

(** The [while] loop of [__iter__] and [__reversed__] in direct style:
    the generations yielded from the loop test on, and how the loop
    ends. *)
Fixpoint peel_loop
    (peel : gset (K * K) → gset K → gset (K * K) * gset K)
    (fuel : nat) (graph : gset (K * K)) (ready : gset K)
    : list (gset K) * sort_end :=
  match fuel with
  | 0 => ([], OutOfFuel)
  | S fuel' =>
      if decide (ready = ∅) then
        ([], if decide (graph = ∅) then Completed else CycleError graph)
      else
        let '(graph', ready') := peel graph ready in
        let '(gs, e) := peel_loop peel fuel' graph' ready' in
        (ready :: gs, e)
  end.

(** No closed walk. *)
Definition acyclic (E : gset (K * K)) : Prop :=
  ∀ x, ¬ tc (edge_rel E) x x.

(** The nodes of the yielded generations, in the order of the
    generations. *)
Definition flatten (gens : list (gset K)) : list K := gens ≫= elements.

(** An edge of [E] that lies on a closed walk of [E]. *)
Definition on_cycle (E : gset (K * K)) (e : K * K) : Prop :=
  e ∈ E ∧ rtc (edge_rel E) e.2 e.1.

(** What the reported sequence [c] is: consecutive nodes are joined by
    edges, and an edge leads from the last node back to the first. *)
Definition cyclic_walk (E : gset (K * K)) (c : list K) : Prop :=
  (∀ i a b, c !! i = Some a → c !! S i = Some b → (a, b) ∈ E) ∧
  ∃ a b, last c = Some a ∧ head c = Some b ∧ (a, b) ∈ E.

(** A closed walk that lists its first node again at the end. *)
Definition closed_walk (E : gset (K * K)) (c : list K) : Prop :=
  (∀ i a b, c !! i = Some a → c !! S i = Some b → (a, b) ∈ E) ∧
  head c = last c.

(** The edges [(n0,n1), (n1,n2), ...] of the chain through [l]. *)
Fixpoint chain (l : list K) : gset (K * K) :=
  match l with
  | x :: (y :: _) as l' => {[ (x, y) ]} ∪ chain l'
  | _ => ∅
  end.

(** Every edge turned round. *)
Definition inverse (G : gset (K * K)) : gset (K * K) :=
  set_map (λ e : K * K, (e.2, e.1)) G.

Definition sort_end_inverse (e : sort_end) : sort_end :=
  match e with
  | CycleError members => CycleError (inverse members)
  | Completed => Completed
  | OutOfFuel => OutOfFuel
  end.

(** One generation per node of a chain that has an edge. *)
Definition chain_generations (l : list K) : list (gset K) :=
  match l with
  | _ :: _ :: _ => (λ v, {[ v ]}) <$> l
  | _ => []
  end.

End dag.

(** ** CycleError *)

Inductive py_exn :=
  | KeyError
  | IndexError
  | OperationalError (msg : string).

(** The result of a call: a value or an exception.  A loop that is
    given fuel answers [None] when the fuel does not suffice. *)
Inductive result (A : Type) :=
  | Return (a : A)
  | Raise (e : py_exn).
Arguments Return {A} a.
Arguments Raise {A} e.

Definition result_map {A B} (f : A → B) (r : result A) : result B :=
  match r with
  | Return a => Return (f a)
  | Raise e => Raise e
  end.

Section cycle_error.
Context `{Countable K} `{!NodeOrder K}.

(** Python compares tuples at the first position where they differ. *)
Definition edge_le : relation (K * K) := λ e1 e2,
  if decide (e1.1 = e2.1) then node_le e1.2 e2.2 else node_le e1.1 e2.1.

#[export] Instance edge_le_dec : RelDecision edge_le.
Proof. intros e1 e2. unfold edge_le. case_decide; apply _. Defined.

(** The builtin [sorted]. *)
Definition sorted {A} (R : relation A) `{!RelDecision R} (l : list A)
    : list A := merge_sort R l.

(** The builtin [dict] on a sequence of pairs: later pairs win. *)
Definition dict (l : list (K * K)) : gmap K K :=
  foldl (λ m kv, <[kv.1 := kv.2]> m) ∅ l.

(** Lines 15-17: the nodes appended by the [while] loop. *)
Fixpoint walk (fuel : nat) (sinks : gmap K K) (first node : K)
    : option (result (list K)) :=
  match fuel with
  | 0 => None
  | S fuel' =>
      if decide (node = first) then Some (Return [])
      else
        match sinks !! node with
        | None => Some (Raise KeyError)
        | Some node' =>
            result_map (cons node) <$> walk fuel' sinks first node'
        end
  end.

(** Line 10: [sinks = dict(sorted(self.members))].  [members] is the
    sequence in which the iteration over [self.members] delivers the
    edges. *)
Definition CycleError_sinks (members : list (K * K)) : gmap K K :=
  dict (sorted edge_le members).

(** Lines 9 and 12: [first = sorted(nodes)[0]]. *)
Definition CycleError_first (members : list (K * K)) : option K :=
  let nodes : gset K := list_to_set members.*1 in
  head (sorted node_le (elements nodes)).

(** Lines 9-17: the list [cycle]. *)
Definition CycleError_cycle (fuel : nat) (members : list (K * K))
    : option (result (list K)) :=
  let sinks := CycleError_sinks members in
  match CycleError_first members with
  | None => Some (Raise IndexError)
  | Some first =>
      match sinks !! first with
      | None => Some (Raise KeyError)
      | Some node =>
          result_map (cons first) <$> walk fuel sinks first node
      end
  end.

(** Line 18. *)
Definition CycleError_str (repr : K → string) (fuel : nat)
    (members : list (K * K)) : option (result string) :=
  result_map (λ cycle, String.concat ", " (repr <$> cycle))
    <$> CycleError_cycle fuel members.

End cycle_error.

(** ** SqliteDAG

    The connection is a database of edge tables, each with two named
    columns, plus the temporary table [WORKING_DAG] when it exists.
    Identifiers are the names as SQLite resolves them; user tables are
    not themselves called [WORKING_DAG]. *)

Section sqlite.
Context `{Countable K}.

Record table := {
  source_column : string;
  sink_column : string;
  rows : list (K * K);
}.

(** A row of [WORKING_DAG(source, sink, leaf INT DEFAULT 0)]; the sink
    of a row inserted without one is NULL. *)
Record working_row := {
  w_source : K;
  w_sink : option K;
  w_leaf : Z;
}.

Record database := {
  main : gmap string table;
  working_dag : option (list working_row);
}.

Record SqliteDAG := {
  table_name : string;
  source_field : string;
  sink_field : string;
}.

(** The accessor of the column called [name]. *)
Definition column_of (t : table) (name : string) : option (K * K → K) :=
  if decide (name = source_column t) then Some fst
  else if decide (name = sink_column t) then Some snd
  else None.

(** Lines 22-27: [CREATE TABLE IF NOT EXISTS]. *)
Definition SqliteDAG_init (db : database)
    (table source sink : string) : result (database * SqliteDAG) :=
  let self := {| table_name := table;
                 source_field := source; sink_field := sink |} in
  match main db !! table with
  | Some _ => Return (db, self)
  | None =>
      if decide (source = sink) then
        Raise (OperationalError "duplicate column name")
      else
        Return ({| main := <[table :=
                     {| source_column := source; sink_column := sink;
                        rows := [] |}]> (main db);
                   working_dag := working_dag db |}, self)
  end.

(** The columns [{source}] and [{sink}] of [{table}], resolved. *)
Definition resolve (db : database) (self : SqliteDAG)
    : result (table * (K * K → K) * (K * K → K)) :=
  match main db !! table_name self with
  | None => Raise (OperationalError "no such table")
  | Some t =>
      match column_of t (source_field self), column_of t (sink_field self) with
      | Some src, Some snk => Return (t, src, snk)
      | _, _ => Raise (OperationalError "no such column")
      end
  end.

(** Lines 51-55: [DELETE FROM {table} WHERE {source}=? AND {sink}=?]. *)
Definition SqliteDAG_discard (db : database) (self : SqliteDAG)
    (e : K * K) : result database :=
  match resolve db self with
  | Return (t, src, snk) =>
      let t' := {| source_column := source_column t;
                   sink_column := sink_column t;
                   rows := filter (λ r, ¬ (src r = e.1 ∧ snk r = e.2))
                             (rows t) |} in
      Return {| main := <[table_name self := t']> (main db);
                working_dag := working_dag db |}
  | Raise err => Raise err
  end.

(** What a Python call hands back. *)
Inductive py_value :=
  | PyNone
  | PyBool (b : bool)
  | PyInt (z : Z).

(** [bool(v)], which the [in] operator applies to what [__contains__]
    returns. *)
Definition truthy (v : py_value) : bool :=
  match v with
  | PyNone => false
  | PyBool b => b
  | PyInt z => bool_decide (z ≠ 0%Z)
  end.

(** Lines 57-61: the cursor of [SELECT 1 FROM {table} WHERE {source}=?
    AND {sink}=?] is bound to [rows]; the body ends there, so the call
    returns [None]. *)
Definition SqliteDAG_contains (db : database) (self : SqliteDAG)
    (e : K * K) : result py_value :=
  match resolve db self with
  | Return (t, src, snk) =>
      let rows : list Z :=
        (λ _, 1%Z) <$> filter (λ r, src r = e.1 ∧ snk r = e.2) (rows t) in
      Return PyNone
  | Raise err => Raise err
  end.

(** [edge in dag] *)
Definition SqliteDAG_in (db : database) (self : SqliteDAG) (e : K * K)
    : result bool :=
  result_map truthy (SqliteDAG_contains db self e).

(** Lines 63-67: [SELECT {source},{sink} FROM {table}]. *)
Definition SqliteDAG_iter (db : database) (self : SqliteDAG)
    : result (list (K * K)) :=
  match resolve db self with
  | Return (t, src, snk) => Return ((λ r, (src r, snk r)) <$> rows t)
  | Raise err => Raise err
  end.

(** [x NOT IN (subquery)]: false as soon as the subquery holds [x], and
    unknown, hence not selected, if it holds a NULL. *)
Definition sql_not_in (x : K) (sub : list (option K)) : Prop :=
  ¬ (Some x ∈ sub ∨ None ∈ sub).

(** [SELECT {sink} FROM WORKING_DAG WHERE leaf = 0] *)
Definition real_sinks (w : list working_row) : list (option K) :=
  w_sink <$> filter (λ r, w_leaf r = 0%Z) w.

(** Lines 103-108. *)
Definition select_no_incoming (w : list working_row) : gset K :=
  list_to_set
    (w_source <$> filter (λ r, sql_not_in (w_source r) (real_sinks w)) w).

(** Lines 112-116. *)
Definition delete_no_incoming (w : list working_row) : list working_row :=
  filter (λ r, ¬ sql_not_in (w_source r) (real_sinks w)) w.

(** Lines 117-120. Rows with [leaf = 0] were copied from an edge table
    and have a sink. *)
Definition select_cycle (w : list working_row) : list (K * K) :=
  omap (λ r, (λ t, (w_source r, t)) <$> w_sink r)
    (filter (λ r, w_leaf r = 0%Z) w).

Inductive sql_gen_state :=
  | SqlNotStarted
  | SqlSuspended
  | SqlFinished.

Inductive sql_event :=
  | SqlYield (generation : gset K)
  | SqlStopIteration
  | SqlRaiseCycleError (cycle : list (K * K))
  | SqlRaise (e : py_exn).

Definition set_working (db : database) (w : option (list working_row))
    : database :=
  {| main := main db; working_dag := w |}.

(** Lines 85-89: [CREATE TEMPORARY TABLE WORKING_DAG(...)]. *)
Definition create_working (db : database) (self : SqliteDAG)
    : result database :=
  match working_dag db with
  | Some _ => Raise (OperationalError "table WORKING_DAG already exists")
  | None =>
      if decide (NoDup [source_field self; sink_field self; "leaf"]) then
        Return (set_working db (Some []))
      else Raise (OperationalError "duplicate column name")
  end.

(** Lines 90-94: the edges of [{table}] are copied, with [leaf = 0]. *)
Definition copy_edges (db : database) (self : SqliteDAG) : result database :=
  match working_dag db with
  | None => Raise (OperationalError "no such table: WORKING_DAG")
  | Some w =>
      match resolve db self with
      | Return (t, src, snk) =>
          Return (set_working db (Some (w ++
            ((λ r, {| w_source := src r; w_sink := Some (snk r);
                      w_leaf := 0 |}) <$> rows t))))
      | Raise err => Raise err
      end
  end.

(** Lines 95-101: one row with [leaf = 1] and no sink for every distinct
    sink.  The statement reads the table called [DAG]. *)
Definition add_leaves (db : database) (self : SqliteDAG) : result database :=
  match working_dag db with
  | None => Raise (OperationalError "no such table: WORKING_DAG")
  | Some w =>
      match main db !! "DAG" with
      | None => Raise (OperationalError "no such table: DAG")
      | Some d =>
          match column_of d (sink_field self) with
          | None => Raise (OperationalError "no such column")
          | Some dsnk =>
              Return (set_working db (Some (w ++
                ((λ k, {| w_source := k; w_sink := None; w_leaf := 1 |})
                   <$> remove_dups (dsnk <$> rows d)))))
          end
      end
  end.

(** Lines 102-126, from the top of the [while True]. *)
Definition sql_loop_head (db : database) (w : list working_row)
    : database * sql_gen_state * sql_event :=
  let nodes_with_no_incoming_edges := select_no_incoming w in
  if decide (nodes_with_no_incoming_edges = ∅) then
    let cycle := select_cycle w in
    let db' := set_working db None in
    if decide (cycle = []) then (db', SqlFinished, SqlStopIteration)
    else (db', SqlFinished, SqlRaiseCycleError cycle)
  else
    (set_working db (Some w), SqlSuspended,
     SqlYield nodes_with_no_incoming_edges).

(** One [next] on the generator returned by [SqliteDAG.topsort].  A
    statement that fails ends the generator and leaves the database as
    the statements before it made it. *)
Definition SqliteDAG_topsort_next (db : database) (self : SqliteDAG)
    (st : sql_gen_state) : database * sql_gen_state * sql_event :=
  match st with
  | SqlNotStarted =>
      match create_working db self with
      | Raise err => (db, SqlFinished, SqlRaise err)
      | Return db1 =>
          match copy_edges db1 self with
          | Raise err => (db1, SqlFinished, SqlRaise err)
          | Return db2 =>
              match add_leaves db2 self with
              | Raise err => (db2, SqlFinished, SqlRaise err)
              | Return db3 =>
                  match working_dag db3 with
                  | Some w => sql_loop_head db3 w
                  | None =>
                      (db3, SqlFinished,
                       SqlRaise (OperationalError "no such table: WORKING_DAG"))
                  end
              end
          end
      end
  | SqlSuspended =>
      match working_dag db with
      | Some w => sql_loop_head db (delete_no_incoming w)
      | None =>
          (db, SqlFinished,
           SqlRaise (OperationalError "no such table: WORKING_DAG"))
      end
  | SqlFinished => (db, SqlFinished, SqlStopIteration)
  end.

Inductive sql_sort_end :=
  | SqlCompleted
  | SqlCycleError (cycle : list (K * K))
  | SqlError (e : py_exn)
  | SqlOutOfFuel.

(** [for nodes in dag.topsort(): ...] *)
Fixpoint sql_exhaust (fuel : nat) (db : database) (self : SqliteDAG)
    (st : sql_gen_state) : list (gset K) * sql_sort_end :=
  match fuel with
  | 0 => ([], SqlOutOfFuel)
  | S fuel' =>
      match SqliteDAG_topsort_next db self st with
      | (db', st', SqlYield g) =>
          let '(gs, e) := sql_exhaust fuel' db' self st' in (g :: gs, e)
      | (_, _, SqlStopIteration) => ([], SqlCompleted)
      | (_, _, SqlRaiseCycleError c) => ([], SqlCycleError c)
      | (_, _, SqlRaise err) => ([], SqlError err)
      end
  end.

End sqlite.

(** Strings as nodes, ordered as Python orders them. *)
Definition string_le : relation string := λ s1 s2, String.leb s1 s2 = true.

#[export] Instance string_le_dec : RelDecision string_le.
Proof. intros s1 s2. unfold string_le. apply _. Defined.

Lemma string_leb_trans s1 s2 s3 :
  String.leb s1 s2 = true → String.leb s2 s3 = true →
  String.leb s1 s3 = true.
Proof.
  unfold String.leb. revert s2 s3.
  induction s1 as [|a s1 IH]; intros [|b s2] [|c s3]; simpl; try done.
  unfold Ascii.compare.
  destruct (N.compare_spec (Ascii.N_of_ascii a) (Ascii.N_of_ascii b)),
    (N.compare_spec (Ascii.N_of_ascii b) (Ascii.N_of_ascii c)),
    (N.compare_spec (Ascii.N_of_ascii a) (Ascii.N_of_ascii c));
    try done; try lia; eauto.
Qed.

#[export] Instance string_le_po : PartialOrder string_le.
Proof.
  split; [split|].
  - intros s. destruct (String.leb_total s s); done.
  - intros s1 s2 s3. apply string_leb_trans.
  - intros s1 s2. apply String.leb_antisym.
Qed.

#[export] Instance string_le_total : Total string_le.
Proof. intros s1 s2. apply String.leb_total. Qed.

#[export] Instance string_node_order : NodeOrder string :=
  {| node_le := string_le |}.

(** Python's [repr] of a short string without quotes or escapes. *)
Definition repr_string (s : string) : string := "'" +:+ s +:+ "'".

(** ** Concrete graphs *)

(** The graph of the docstring of [DAG]. *)
Definition doc_graph : gset (string * string) :=
  {[ ("a", "b"); ("b", "d"); ("a", "c"); ("c", "d") ]}.

(** A connection holding the single edge [a -> b] in a table [edges]. *)
Definition edges_db : database (K:=string) :=
  {| main := {[ "edges" := {| source_column := "source";
                              sink_column := "sink";
                              rows := [("a", "b")] |} ]};
     working_dag := None |}.

Definition edges_dag : SqliteDAG :=
  {| table_name := "edges"; source_field := "source"; sink_field := "sink" |}.

(** A residual edge set: no node is without an incoming edge. *)
Definition stuck_residual : gset (string * string) :=
  {[ ("a", "b"); ("b", "c"); ("c", "a"); ("c", "b") ]}.

(** [dict(sorted(self.members))] for it. *)
Definition stuck_sinks : gmap string string :=
  CycleError_sinks (elements stuck_residual).

(** A rank that every edge of [doc_graph] goes up in. *)
Definition doc_rank (s : string) : nat :=
  if decide (s = "a") then 0 else if decide (s = "d") then 2 else 1.

(** What is left of [doc_graph] with the edge [d -> c] added. *)
Definition doc_residual : gset (string * string) :=
  {[ ("c", "d"); ("d", "c") ]}.

(** What the sort of the docstring graph with [d -> c] added yields
    before it raises. *)
Definition doc_cyclic_generations : list (gset string) :=
  [ {["a"]}; {["b"]} ].

(** ** DAG.topsort as it is called *)

(** What a call hands back when it can raise [TypeError]. *)
Inductive call_result (A : Type) :=
  | Returned (a : A)
  | TypeError (msg : string).
Arguments Returned {A} a.
Arguments TypeError {A} msg.

(** [kwargs.pop(key, default)]; [kwargs] holds the keywords in the order
    of the call, every name once. *)
Definition kwargs_pop {V} (kwargs : list (string * V)) (key : string)
    (default : V) : V * list (string * V) :=
  match list_find (λ kv, kv.1 = key) kwargs with
  | Some (i, kv) => (kv.2, delete i kwargs)
  | None => (default, kwargs)
  end.

(** Lines 143-147.  [kwargs.popitem()] takes the keyword passed last.
    The values of the keywords are sequences of nodes. *)
Definition DAG_topsort_call `{Countable K} (repr : string → string)
    (σ : gmap loc (gset (K * K))) (self : loc)
    (start : list K) (kwargs : list (string * list K))
    : option (call_result (gmap loc (gset (K * K)) * TopologicalSorter)) :=
  let '(endpoints, kwargs) := kwargs_pop kwargs "endpoints" [] in
  match last kwargs with
  | Some (key, _) =>
      Some (TypeError
              ("topsort got unexpected keyword argument " +:+ repr key))
  | None => Returned <$> DAG_topsort σ self start endpoints
  end.

(** ** SqliteDAG: the other statements *)

(** [s.replace('`', '``')] *)
Fixpoint replace_backtick (s : string) : string :=
  match s with
  | EmptyString => EmptyString
  | String c s' =>
      if Ascii.eqb c "`"%char then
        String "`"%char (String "`"%char (replace_backtick s'))
      else String c (replace_backtick s')
  end.

(** Lines 36-38: ['`{}`'.format(...)]. *)
Definition backquote (s : string) : string :=
  "`" +:+ replace_backtick s +:+ "`".

(** Lines 34-39: the values of [table], [source] and [sink]. *)
Definition SqliteDAG_properties (self : SqliteDAG)
    : string * string * string :=
  (backquote (table_name self), backquote (source_field self),
   backquote (sink_field self)).

(** How SQLite reads an identifier in backticks off the front of a
    statement: up to the first backtick that is not doubled; a doubled
    one stands for one backtick of the name.  The result is the name and
    the rest of the statement. *)
Fixpoint read_quoted (s : string) : option (string * string) :=
  match s with
  | EmptyString => None
  | String c s' =>
      if Ascii.eqb c "`"%char then
        match s' with
        | String c' s'' =>
            if Ascii.eqb c' "`"%char then
              prod_map (String "`"%char) id <$> read_quoted s''
            else Some (EmptyString, s')
        | EmptyString => Some (EmptyString, EmptyString)
        end
      else prod_map (String c) id <$> read_quoted s'
  end.

Definition read_identifier (s : string) : option (string * string) :=
  match s with
  | String c s' => if Ascii.eqb c "`"%char then read_quoted s' else None
  | EmptyString => None
  end.

Section sqlite_statements.
Context `{Countable K}.

(** What [add] does: it returns, or [execute] raises. *)
Inductive add_result :=
  | AddReturn (db : database (K:=K))
  | AddRaise (e : py_exn)
  | AddIntegrityError (msg : string).

(** Lines 45-49: [INSERT INTO {table}({source}, {sink}) VALUES (?, ?)]
    on a table as [__init__] creates it: both columns [NOT NULL], and a
    row that is already there is replaced.  A column that the statement
    does not name would be left NULL. *)
Definition SqliteDAG_add (db : database (K:=K)) (self : SqliteDAG)
    (e : K * K) : add_result :=
  match resolve db self with
  | Raise err => AddRaise err
  | Return (t, _, _) =>
      let insert (row : K * K) :=
        let t' := {| source_column := source_column t;
                     sink_column := sink_column t;
                     rows := filter (λ r, r ≠ row) (rows t) ++ [row] |} in
        AddReturn {| main := <[table_name self := t']> (main db);
                     working_dag := working_dag db |} in
      if decide (source_field self = source_column t) then
        if decide (sink_field self = source_column t) then
          AddIntegrityError "NOT NULL constraint failed"
        else insert (e.1, e.2)
      else
        if decide (sink_field self = source_column t) then
          insert (e.2, e.1)
        else AddIntegrityError "NOT NULL constraint failed"
  end.


(** Lines 75-81: the [UNION] of the two columns, every value once. *)
Definition SqliteDAG_nodes (db : database (K:=K)) (self : SqliteDAG)
    : result (list K) :=
  match resolve db self with
  | Return (t, src, snk) =>
      Return (remove_dups ((src <$> rows t) ++ (snk <$> rows t)))
  | Raise err => Raise err
  end.

(** The loop of [topsort] in direct style, on the rows of
    [WORKING_DAG]. *)
Fixpoint sql_loop (fuel : nat) (w : list (working_row (K:=K)))
    : list (gset K) * sql_sort_end :=
  match fuel with
  | 0 => ([], SqlOutOfFuel)
  | S fuel' =>
      let nodes_with_no_incoming_edges := select_no_incoming w in
      if decide (nodes_with_no_incoming_edges = ∅) then
        ([], if decide (select_cycle w = []) then SqlCompleted
             else SqlCycleError (select_cycle w))
      else
        let '(gs, e) := sql_loop fuel' (delete_no_incoming w) in
        (nodes_with_no_incoming_edges :: gs, e)
  end.

(** The rows that the two INSERT statements put into [WORKING_DAG]. *)
Definition working_rows (edges : list (K * K)) : list (working_row (K:=K)) :=
  ((λ e, {| w_source := e.1; w_sink := Some e.2; w_leaf := 0 |}) <$> edges)
  ++ ((λ k, {| w_source := k; w_sink := None; w_leaf := 1 |})
        <$> remove_dups (edges.*2)).

(** How the end of a storage-backed sort reads as the end of a sort in
    memory. *)
Definition sort_end_of_sql (e : sql_sort_end (K:=K))
    : option (sort_end (K:=K)) :=
  match e with
  | SqlCompleted => Some Completed
  | SqlCycleError cycle => Some (CycleError (list_to_set cycle))
  | SqlOutOfFuel => Some OutOfFuel
  | SqlError _ => None
  end.

End sqlite_statements.

(** The graph of the docstring in a table called [DAG]. *)
Definition doc_db : database (K:=string) :=
  {| main := {[ "DAG" := {| source_column := "source";
                            sink_column := "sink";
                            rows := [("a", "b"); ("b", "d");
                                     ("a", "c"); ("c", "d")] |} ]};
     working_dag := None |}.

Definition doc_dag : SqliteDAG :=
  {| table_name := "DAG"; source_field := "source"; sink_field := "sink" |}.

(** * Properties *)

(** ** The docstring of [DAG] *)

Example doc_forward :
  forward_sort doc_graph = ([ {["a"]}; {["b"; "c"]}; {["d"]} ], Completed).
Proof. vm_compute. reflexivity. Qed.

Example doc_start_c :
  (g ← TopologicalSorter_init doc_graph ["c"] []; Some (forward_sort g))
  = Some ([ {["c"]}; {["d"]} ], Completed).
Proof. vm_compute. reflexivity. Qed.

Example doc_endpoint_b :
  (g ← TopologicalSorter_init doc_graph [] ["b"]; Some (forward_sort g))
  = Some ([ {["a"]}; {["b"]} ], Completed).
Proof. vm_compute. reflexivity. Qed.

Example doc_start_c_endpoint_c :
  (g ← TopologicalSorter_init doc_graph ["c"] ["c"]; Some (forward_sort g))
  = Some ([], Completed).
Proof. vm_compute. reflexivity. Qed.

Example doc_cycle :
  forward_sort (DAG_add doc_graph ("d", "c"))
  = ([ {["a"]}; {["b"]} ], CycleError {[ ("c", "d"); ("d", "c") ]}).
Proof. vm_compute. reflexivity. Qed.

Example doc_cycle_message :
  CycleError_str repr_string 5 (elements ({[ ("c", "d"); ("d", "c") ]} : gset _))
  = Some (Return "'c', 'd'").
Proof. vm_compute. reflexivity. Qed.

(** ** Edge removal *)

Section removal.
Context `{Countable K}.

Lemma table_eta (t : table (K:=K)) :
  {| source_column := source_column t; sink_column := sink_column t;
     rows := rows t |} = t.
Proof. by destruct t. Qed.

Lemma database_eta (db : database (K:=K)) :
  {| main := main db; working_dag := working_dag db |} = db.
Proof. by destruct db. Qed.

Lemma filter_all {A} (P : A → Prop) `{!∀ x, Decision (P x)} (l : list A) :
  Forall P l → filter P l = l.
Proof.
  induction 1 as [|x l Hx _ IH]; [done|].
  rewrite filter_cons_True; [by rewrite IH | done].
Qed.

Lemma resolve_table (db : database (K:=K)) self t src snk :
  resolve db self = Return (t, src, snk) →
  main db !! table_name self = Some t.
Proof.
  unfold resolve. destruct (main db !! table_name self) as [t'|]; [|done].
  intros Hr. repeat case_match; by simplify_eq.
Qed.

(** C4: removing an edge that the graph does not hold changes nothing
    and raises nothing, both for the in-memory [DAG] [G] and for a
    [SqliteDAG] whose table holds the edges of [G]. *)
Theorem discard_absent_is_noop
    (G : gset (K * K)) (db : database) (self : SqliteDAG)
    (es : list (K * K)) (e : K * K) :
  SqliteDAG_iter db self = Return es →
  list_to_set es = G →
  e ∉ G →
  DAG_discard G e = G ∧ SqliteDAG_discard db self e = Return db.
Proof.
  intros Hes HG He. split.
  - unfold DAG_discard. by apply difference_disjoint_L, disjoint_singleton_r.
  - unfold SqliteDAG_iter, SqliteDAG_discard in *.
    destruct (resolve db self) as [[[t src] snk]|err] eqn:Hres; [|done].
    injection Hes as Hes. subst es. apply resolve_table in Hres.
    rewrite filter_all.
    + rewrite table_eta, insert_id, database_eta; done.
    + apply Forall_forall. intros r Hr [H1 H2]. apply He.
      rewrite <- HG. apply elem_of_list_to_set, list_elem_of_fmap.
      exists r. split; [|done]. destruct e; simpl in *; by subst.
Qed.

End removal.

Lemma discard_absent_is_noop_witness :
  DAG_discard {[ ("a", "b") ]} ("b", "a") = {[ ("a", "b") ]} ∧
  SqliteDAG_discard edges_db edges_dag ("b", "a") = Return edges_db.
Proof.
  apply (discard_absent_is_noop {[ ("a", "b") ]} edges_db edges_dag
           [("a", "b")] ("b", "a")).
  - reflexivity.
  - vm_compute. reflexivity.
  - vm_compute. discriminate.
Defined.

(** ** SqliteDAG.__contains__ *)

Lemma SqliteDAG_contains_None `{Countable K}
    (db : database (K:=K)) self e v :
  SqliteDAG_contains db self e = Return v → v = PyNone.
Proof.
  unfold SqliteDAG_contains.
  destruct (resolve db self) as [[[t src] snk]|err]; congruence.
Qed.

(** C9: on the table holding the edge [a -> b], [__contains__] answers
    [None] for that very edge, so [("a", "b") in dag] is [False] although
    the edge is stored. *)
Theorem SqliteDAG_contains_present_edge :
  SqliteDAG_iter edges_db edges_dag = Return [("a", "b")] ∧
  SqliteDAG_contains edges_db edges_dag ("a", "b") = Return PyNone ∧
  SqliteDAG_in edges_db edges_dag ("a", "b") = Return false.
Proof. repeat split. Qed.

(** ** SqliteDAG.topsort *)

(** C8: over a table called [edges] the storage-backed sort stops with
    an [OperationalError] before its first generation, because the leaf
    rows are read from a table called [DAG]; the in-memory sort of the
    same edge completes with two generations. *)
Theorem SqliteDAG_topsort_other_table_name :
  SqliteDAG_iter edges_db edges_dag = Return [("a", "b")] ∧
  forward_sort {[ ("a", "b") ]} = ([ {["a"]}; {["b"]} ], Completed) ∧
  sql_exhaust 5 edges_db edges_dag SqlNotStarted
  = ([], SqlError (OperationalError "no such table: DAG")).
Proof. split; [|split]; vm_compute; reflexivity. Qed.

(** The same rows in a table that is called [DAG] sort as in memory. *)
Example SqliteDAG_topsort_table_DAG :
  sql_exhaust 5
    {| main := {[ "DAG" := {| source_column := "source";
                              sink_column := "sink";
                              rows := [("a", "b")] |} ]};
       working_dag := None |}
    {| table_name := "DAG"; source_field := "source"; sink_field := "sink" |}
    SqlNotStarted
  = ([ {["a"]}; {["b"]} ], SqlCompleted).
Proof. vm_compute. reflexivity. Qed.

(** ** CycleError.__str__ on a residue whose walk does not return *)

Lemma walk_step `{Countable K} fuel (sinks : gmap K K) first node :
  walk (S fuel) sinks first node =
  if decide (node = first) then Some (Return [])
  else
    match sinks !! node with
    | None => Some (Raise KeyError)
    | Some node' => result_map (cons node) <$> walk fuel sinks first node'
    end.
Proof. reflexivity. Qed.

Lemma stuck_sinks_lookup :
  stuck_sinks !! "a" = Some "b" ∧ stuck_sinks !! "b" = Some "c" ∧
  stuck_sinks !! "c" = Some "b".
Proof. repeat split; vm_compute; reflexivity. Qed.

Lemma stuck_walk fuel :
  walk fuel stuck_sinks "a" "b" = None ∧
  walk fuel stuck_sinks "a" "c" = None.
Proof.
  induction fuel as [|fuel [IHb IHc]]; [split; reflexivity|].
  destruct stuck_sinks_lookup as (_ & Hb & Hc).
  rewrite !walk_step, Hb, Hc, IHb, IHc.
  split; (rewrite decide_False; [reflexivity | discriminate]).
Qed.

(** C3: the forward sort hands [stuck_residual] to [CycleError]; every
    node of it has an incoming and an outgoing edge; yet the walk from
    ['a'] goes ['b', 'c', 'b', 'c', ...] and no amount of steps brings it
    back to ['a']. *)
Theorem CycleError_walk_never_returns :
  forward_sort stuck_residual = ([], CycleError stuck_residual) ∧
  sources_of stuck_residual = sinks_of stuck_residual ∧
  ∀ fuel, CycleError_cycle fuel (elements stuck_residual) = None.
Proof.
  split; [vm_compute; reflexivity|]. split; [vm_compute; reflexivity|].
  intros fuel. unfold CycleError_cycle.
  assert (CycleError_first (elements stuck_residual) = Some "a") as ->
    by (vm_compute; reflexivity).
  fold stuck_sinks.
  destruct stuck_sinks_lookup as (-> & _ & _).
  by destruct (stuck_walk fuel) as [-> _].
Qed.

(** ** The subgraph filter *)

Section filter.
Context `{Countable K}.
Implicit Types (E : gset (K * K)) (X S : gset K).

Lemma elem_of_children_of E X v :
  v ∈ children_of E X ↔ ∃ u, u ∈ X ∧ edge_rel E u v.
Proof.
  unfold children_of, edge_rel. rewrite elem_of_map. split.
  - intros ([u v'] & -> & [Hu HE]%elem_of_filter). by exists u.
  - intros (u & Hu & HE). exists (u, v). split; [done|].
    by apply elem_of_filter.
Qed.

Lemma elem_of_parents_of E X v :
  v ∈ parents_of E X ↔ ∃ u, u ∈ X ∧ flip (edge_rel E) u v.
Proof.
  unfold parents_of, edge_rel, flip. rewrite elem_of_map. split.
  - intros ([v' u] & -> & [Hu HE]%elem_of_filter). by exists u.
  - intros (u & Hu & HE). exists (v, u). split; [done|].
    by apply elem_of_filter.
Qed.

Lemma closure_loop_spec (R : relation K) (grow : gset K → gset K)
    (U seed : gset K) fuel :
  (∀ X v, v ∈ grow X ↔ ∃ u, u ∈ X ∧ R u v) →
  (∀ u v, R u v → v ∈ U) →
  seed ⊆ U →
  ∀ relevant children,
    (∀ v, v ∈ relevant → reach R seed v) →
    (∀ v, v ∈ children → reach R seed v) →
    seed ⊆ relevant ∪ children →
    grow relevant ⊆ children →
    size (U ∖ relevant) < fuel →
    ∃ res, closure_loop grow fuel relevant children = Some res ∧
           ∀ v, v ∈ res ↔ reach R seed v.
Proof.
  intros grow_spec R_bound seed_bound.
  assert (reach_bound : ∀ v, reach R seed v → v ∈ U).
  { intros v (s & Hs & Hsv). destruct (rtc_inv_r _ _ Hsv) as [<-|(y & _ & Hy)].
    - by apply seed_bound.
    - by eapply R_bound. }
  induction fuel as [|fuel IH]; intros relevant children Hrel Hch HS Hgrow Hfuel;
    [lia|].
  cbn [closure_loop]. case_decide as Hsub.
  - exists relevant. split; [done|]. intros v. split; [apply Hrel|].
    intros (s & Hs & Hsv).
    assert (Hs' : s ∈ relevant).
    { apply HS in Hs. apply elem_of_union in Hs as [?|?]; auto. }
    clear Hs.
    induction Hsv as [s|s y v Hsy _ IHv]; [done|].
    apply IHv, Hsub, Hgrow, grow_spec. by exists s.
  - apply IH.
    + intros v [?|?]%elem_of_union; auto.
    + intros v (u & Hu & Huv)%grow_spec.
      assert (reach R seed u) as (s & Hs & Hsu).
      { apply elem_of_union in Hu as [?|?]; auto. }
      exists s. split; [done|]. by eapply rtc_r.
    + intros v Hv. apply elem_of_union_l. by apply HS.
    + done.
    + destruct (set_choose_L (children ∖ relevant)) as [x Hx].
      { intros Heq. apply Hsub. intros y Hy.
        destruct (decide (y ∈ relevant)); [done|].
        assert (y ∈ children ∖ relevant) as Hy'
          by by apply elem_of_difference.
        rewrite Heq in Hy'. by apply not_elem_of_empty in Hy'. }
      apply elem_of_difference in Hx as [Hx Hnx].
      assert (x ∈ U) by auto.
      assert (U ∖ (relevant ∪ children) ⊂ U ∖ relevant) as Hlt%subset_size;
        [|lia].
      apply strict_spec_alt. split.
      * intros y [Hy Hny]%elem_of_difference. apply elem_of_difference.
        split; [done|]. intros ?. apply Hny. by apply elem_of_union_l.
      * intros Heq. assert (x ∈ U ∖ relevant) as Hxin
          by by apply elem_of_difference.
        rewrite <- Heq in Hxin. apply elem_of_difference in Hxin as [_ Hxin].
        apply Hxin. by apply elem_of_union_r.
Qed.


Lemma elem_of_sinks_of E v : v ∈ sinks_of E ↔ ∃ u, (u, v) ∈ E.
Proof.
  unfold sinks_of. rewrite elem_of_map. split.
  - intros ([u v'] & -> & HE). by exists u.
  - intros (u & HE). by exists (u, v).
Qed.

Lemma elem_of_sources_of E u : u ∈ sources_of E ↔ ∃ v, (u, v) ∈ E.
Proof.
  unfold sources_of. rewrite elem_of_map. split.
  - intros ([u' v] & -> & HE). by exists v.
  - intros (v & HE). by exists (u, v).
Qed.

Lemma forward_closure_spec E (seed : gset K) :
  ∃ res, closure_loop (children_of E) (closure_fuel E seed) ∅ seed = Some res ∧
         ∀ v, v ∈ res ↔ reach (edge_rel E) seed v.
Proof.
  unfold closure_fuel.
  apply (closure_loop_spec (edge_rel E) (children_of E)
           (seed ∪ sources_of E ∪ sinks_of E) seed).
  - apply elem_of_children_of.
  - intros u v Huv. apply elem_of_union_r, elem_of_sinks_of. by exists u.
  - intros v Hv. by apply elem_of_union_l, elem_of_union_l.
  - intros v Hv. by apply not_elem_of_empty in Hv.
  - intros v Hv. exists v. split; [done|]. apply rtc_refl.
  - intros v Hv. by apply elem_of_union_r.
  - intros v (u & Hu & _)%elem_of_children_of. by apply not_elem_of_empty in Hu.
  - rewrite difference_empty_L. lia.
Qed.

Lemma backward_closure_spec E (seed : gset K) :
  ∃ res, closure_loop (parents_of E) (closure_fuel E seed) ∅ seed = Some res ∧
         ∀ v, v ∈ res ↔ reach (flip (edge_rel E)) seed v.
Proof.
  unfold closure_fuel.
  apply (closure_loop_spec (flip (edge_rel E)) (parents_of E)
           (seed ∪ sources_of E ∪ sinks_of E) seed).
  - apply elem_of_parents_of.
  - intros u v Huv. apply elem_of_union_l, elem_of_union_r, elem_of_sources_of.
    by exists u.
  - intros v Hv. by apply elem_of_union_l, elem_of_union_l.
  - intros v Hv. by apply not_elem_of_empty in Hv.
  - intros v Hv. exists v. split; [done|]. apply rtc_refl.
  - intros v Hv. by apply elem_of_union_r.
  - intros v (u & Hu & _)%elem_of_parents_of. by apply not_elem_of_empty in Hu.
  - rewrite difference_empty_L. lia.
Qed.

(** The start filter keeps the edges whose source a start node reaches. *)
Lemma start_filter_spec E (start : list K) :
  start ≠ [] →
  ∃ F, start_filter E start = Some F ∧
       ∀ e, e ∈ F ↔ e ∈ E ∧ reach (edge_rel E) (list_to_set start) e.1.
Proof.
  intros Hne. unfold start_filter. rewrite decide_False by done.
  destruct (forward_closure_spec E (list_to_set start)) as (res & -> & Hres).
  cbn. eexists. split; [done|]. intros e.
  rewrite elem_of_filter, Hres. tauto.
Qed.

(** The endpoint filter keeps the edges whose sink reaches an endpoint. *)
Lemma endpoint_filter_spec E (endpoints : list K) :
  endpoints ≠ [] →
  ∃ F, endpoint_filter E endpoints = Some F ∧
       ∀ e, e ∈ F ↔
            e ∈ E ∧ reach (flip (edge_rel E)) (list_to_set endpoints) e.2.
Proof.
  intros Hne. unfold endpoint_filter. rewrite decide_False by done.
  destruct (backward_closure_spec E (list_to_set endpoints)) as (res & -> & Hres).
  cbn. eexists. split; [done|]. intros e.
  rewrite elem_of_filter, Hres. tauto.
Qed.

(** [TopologicalSorter.__init__] always returns. *)
Lemma TopologicalSorter_init_total E (start endpoints : list K) :
  ∃ g, TopologicalSorter_init E start endpoints = Some g ∧ g ⊆ E.
Proof.
  unfold TopologicalSorter_init.
  assert (∃ E1, start_filter E start = Some E1 ∧ E1 ⊆ E) as (E1 & -> & HE1).
  { destruct (decide (start = [])) as [->|Hne]; [by exists E|].
    destruct (start_filter_spec E start Hne) as (F & -> & HF).
    exists F. split; [done|]. intros e He. by apply HF. }
  cbn.
  destruct (decide (endpoints = [])) as [->|Hne]; [by exists E1|].
  destruct (endpoint_filter_spec E1 endpoints Hne) as (F & -> & HF).
  exists F. split; [done|]. intros e He. by apply HE1, HF.
Qed.

Lemma rtc_flip_iff (R : relation K) x y : rtc (flip R) x y ↔ rtc R y x.
Proof.
  split.
  - induction 1 as [|x y z Hxy _ IH]; [done|]. by eapply rtc_r.
  - induction 1 as [|x y z Hxy _ IH]; [done|]. by eapply rtc_r.
Qed.

Lemma edge_rel_mono E F : F ⊆ E → ∀ x y, rtc (edge_rel F) x y → rtc (edge_rel E) x y.
Proof.
  intros HFE x y. apply rtc_subrel. intros a b Hab. by apply HFE.
Qed.

(** A path that starts at a node reached from [seed] stays among the
    edges the start filter keeps. *)
Lemma rtc_start_filtered E F seed x y :
  (∀ e, e ∈ F ↔ e ∈ E ∧ reach (edge_rel E) seed e.1) →
  reach (edge_rel E) seed x → rtc (edge_rel E) x y → rtc (edge_rel F) x y.
Proof.
  intros HF Hx Hxy. induction Hxy as [|x x' y Hxx' _ IH]; [done|].
  apply (rtc_l _ _ x').
  - apply HF. done.
  - apply IH. destruct Hx as (s & Hs & Hsx). exists s. split; [done|].
    by eapply rtc_r.
Qed.

(** A path that ends at a node reaching [seed] stays among the edges the
    endpoint filter keeps. *)
Lemma rtc_endpoint_filtered E F seed x y :
  (∀ e, e ∈ F ↔ e ∈ E ∧ reach (flip (edge_rel E)) seed e.2) →
  reach (flip (edge_rel E)) seed y → rtc (edge_rel E) x y →
  rtc (edge_rel F) x y.
Proof.
  intros HF Hy Hxy. induction Hxy as [|x x' y Hxx' Hx'y IH]; [done|].
  apply (rtc_l _ _ x'); [|by apply IH].
  apply HF. split; [done|]. cbn.
  destruct Hy as (t & Ht & Hty). exists t. split; [done|].
  apply rtc_flip_iff. etrans; [done|]. by apply rtc_flip_iff.
Qed.

(** C5: with starts and endpoints both given, filtering by starts and
    then by endpoints (what [TopologicalSorter.__init__] does) and
    filtering in the opposite order give the same edge set, and that set
    holds exactly the edges on a path from a start to an endpoint. *)
Theorem filters_commute E (start endpoints : list K) :
  start ≠ [] → endpoints ≠ [] →
  ∃ F,
    TopologicalSorter_init E start endpoints = Some F ∧
    (E1 ← start_filter E start; endpoint_filter E1 endpoints) = Some F ∧
    (E1 ← endpoint_filter E endpoints; start_filter E1 start) = Some F ∧
    ∀ e, e ∈ F ↔ lies_on_path E start endpoints e.
Proof.
  intros Hs Ht. unfold TopologicalSorter_init.
  destruct (start_filter_spec E start Hs) as (E1 & HE1eq & HE1).
  destruct (endpoint_filter_spec E1 endpoints Ht) as (F & HFeq & HF).
  destruct (endpoint_filter_spec E endpoints Ht) as (E2 & HE2eq & HE2).
  destruct (start_filter_spec E2 start Hs) as (F' & HF'eq & HF').
  assert (HE1sub : E1 ⊆ E) by (intros e He; by apply HE1).
  assert (HE2sub : E2 ⊆ E) by (intros e He; by apply HE2).
  assert (HFpath : ∀ e, e ∈ F ↔ lies_on_path E start endpoints e).
  { intros e. rewrite HF, HE1. unfold lies_on_path, reach. split.
    - intros [[He (s & Hs' & Hse)] (t & Ht' & Hte)].
      apply elem_of_list_to_set in Hs', Ht'. split; [done|]. split.
      + by exists s.
      + exists t. split; [done|].
        by apply (edge_rel_mono E E1), rtc_flip_iff.
    - intros (He & (s & Hs' & Hse) & (t & Ht' & Hte)).
      assert (Hsrc : reach (edge_rel E) (list_to_set start) e.1).
      { exists s. split; [by apply elem_of_list_to_set|done]. }
      split; [done|]. exists t. split; [by apply elem_of_list_to_set|].
      apply rtc_flip_iff.
      apply (rtc_start_filtered E E1 (list_to_set start)); [done| |done].
      destruct Hsrc as (s' & Hs'' & Hs'e). exists s'. split; [done|].
      eapply rtc_r; [done|]. unfold edge_rel. by destruct e. }
  assert (HF'path : ∀ e, e ∈ F' ↔ lies_on_path E start endpoints e).
  { intros e. rewrite HF', HE2. unfold lies_on_path, reach. split.
    - intros [[He (t & Ht' & Hte)] (s & Hs' & Hse)].
      apply elem_of_list_to_set in Hs', Ht'. split; [done|]. split.
      + exists s. split; [done|]. by apply (edge_rel_mono E E2).
      + exists t. split; [done|]. by apply rtc_flip_iff.
    - intros (He & (s & Hs' & Hse) & (t & Ht' & Hte)).
      assert (Hsnk : reach (flip (edge_rel E)) (list_to_set endpoints) e.2).
      { exists t. split; [by apply elem_of_list_to_set|by apply rtc_flip_iff]. }
      split; [done|]. exists s. split; [by apply elem_of_list_to_set|].
      apply (rtc_endpoint_filtered E E2 (list_to_set endpoints)); [done| |done].
      destruct Hsnk as (t' & Ht'' & Ht'e). exists t'. split; [done|].
      eapply rtc_r; [done|]. unfold flip, edge_rel. by destruct e. }
  exists F. rewrite HE1eq, HE2eq. cbn. rewrite HFeq, HF'eq.
  split; [done|]. split; [done|]. split; [|done].
  f_equal. apply set_eq. intros e. by rewrite HFpath, HF'path.
Qed.

End filter.

Lemma filters_commute_witness :
  ∃ F,
    TopologicalSorter_init doc_graph ["a"] ["b"] = Some F ∧
    (E1 ← start_filter doc_graph ["a"]; endpoint_filter E1 ["b"]) = Some F ∧
    (E1 ← endpoint_filter doc_graph ["b"]; start_filter E1 ["a"]) = Some F ∧
    ∀ e, e ∈ F ↔ lies_on_path doc_graph ["a"] ["b"] e.
Proof. apply (filters_commute doc_graph ["a"] ["b"]); discriminate. Defined.

(** ** The caller's graph is never written to *)

Section frame.
Context `{Countable K}.
Implicit Types (σ : gmap loc (gset (K * K))) (s : TopologicalSorter).

Lemma DAG_topsort_fresh σ self start endpoints σ' s :
  DAG_topsort σ self start endpoints = Some (σ', s) →
  σ !! graph s = None ∧
  ∃ edges g, σ !! self = Some edges ∧
    TopologicalSorter_init edges start endpoints = Some g ∧
    σ' = <[graph s := g]> σ.
Proof.
  unfold DAG_topsort.
  destruct (σ !! self) as [edges|] eqn:Hself; cbn; [|discriminate].
  destruct (TopologicalSorter_init edges start endpoints) as [g|] eqn:Hg;
    cbn; [|discriminate].
  intros Hs. injection Hs as <- <-. cbn. split.
  - apply not_elem_of_dom, is_fresh.
  - by exists edges, g.
Qed.

Lemma sorter_next_own next σ s st g :
  σ !! graph s = Some g →
  sorter_next next σ s st
  = Some (<[graph s := (next g st).1.1]> σ, (next g st).1.2, (next g st).2).
Proof.
  intros Hg. unfold sorter_next. rewrite Hg. simpl.
  destruct (next g st) as [[g' st'] ev]. reflexivity.
Qed.

Lemma interleave_separate next1 next2 sched :
  ∀ σ s1 st1 s2 st2 g1 g2,
    graph s1 ≠ graph s2 →
    σ !! graph s1 = Some g1 → σ !! graph s2 = Some g2 →
    ∃ σ',
      interleave next1 next2 sched σ s1 st1 s2 st2
      = Some (σ',
              ((gen_run next1 (length (filter (λ b, b = true) sched)) g1 st1).1.2,
               (gen_run next1 (length (filter (λ b, b = true) sched)) g1 st1).2),
              ((gen_run next2 (length (filter (λ b, b = false) sched)) g2 st2).1.2,
               (gen_run next2 (length (filter (λ b, b = false) sched)) g2 st2).2))
      ∧ ∀ l, l ≠ graph s1 → l ≠ graph s2 → σ' !! l = σ !! l.
Proof.
  induction sched as [|[] sched IH]; intros σ s1 st1 s2 st2 g1 g2 Hne H1 H2.
  - exists σ. done.
  - rewrite filter_cons_True, filter_cons_False by done.
    cbn [interleave length gen_run].
    rewrite (sorter_next_own _ _ _ _ g1) by done.
    destruct (next1 g1 st1) as [[g1' st1'] ev] eqn:Hn. cbn.
    destruct (IH (<[graph s1:=g1']> σ) s1 st1' s2 st2 g1' g2) as (σ' & -> & Hfr).
    { done. } { by rewrite lookup_insert_eq. } { by rewrite lookup_insert_ne. }
    destruct (gen_run next1 _ g1' st1') as [[gx stx] evx]. cbn.
    eexists. split; [done|]. intros l Hl1 Hl2.
    rewrite Hfr by done. rewrite lookup_insert_ne by congruence. done.
  - rewrite (filter_cons_True (λ b, b = false)),
      (filter_cons_False (λ b, b = true)) by done.
    cbn [interleave length gen_run].
    rewrite (sorter_next_own _ _ _ _ g2) by done.
    destruct (next2 g2 st2) as [[g2' st2'] ev] eqn:Hn. cbn.
    destruct (IH (<[graph s2:=g2']> σ) s1 st1 s2 st2' g1 g2') as (σ' & -> & Hfr).
    { done. } { by rewrite lookup_insert_ne. } { by rewrite lookup_insert_eq. }
    destruct (gen_run next2 _ g2' st2') as [[gx stx] evx]. cbn.
    eexists. split; [done|]. intros l Hl1 Hl2.
    rewrite Hfr by done. rewrite lookup_insert_ne by congruence. done.
Qed.

(** C7: whatever is pulled from two sorts over the same graph, forward
    or reverse, in whatever order and however far, the caller's graph
    object holds the same edges afterwards, and what each sort produces
    is what it produces alone on its own copy of the filtered edges. *)
Theorem sorts_leave_graph_unchanged σ (self : loc) (G : gset (K * K))
    (start1 endpoints1 start2 endpoints2 : list K)
    (d1 d2 : direction) (sched : list bool) :
  σ !! self = Some G →
  ∃ σ1 s1 σ2 s2 g1 g2 σ',
    DAG_topsort σ self start1 endpoints1 = Some (σ1, s1) ∧
    DAG_topsort σ1 self start2 endpoints2 = Some (σ2, s2) ∧
    TopologicalSorter_init G start1 endpoints1 = Some g1 ∧
    TopologicalSorter_init G start2 endpoints2 = Some g2 ∧
    graph s1 ≠ self ∧ graph s2 ≠ self ∧ graph s1 ≠ graph s2 ∧
    σ2 !! self = Some G ∧
    interleave (direction_next d1) (direction_next d2) sched
      σ2 s1 NotStarted s2 NotStarted
    = Some (σ',
        (let r := gen_run (direction_next d1)
                    (length (filter (λ b, b = true) sched)) g1 NotStarted in
         (r.1.2, r.2)),
        (let r := gen_run (direction_next d2)
                    (length (filter (λ b, b = false) sched)) g2 NotStarted in
         (r.1.2, r.2))) ∧
    σ' !! self = Some G.
Proof.
  intros Hself.
  destruct (TopologicalSorter_init_total G start1 endpoints1) as (g1 & Hg1 & _).
  destruct (TopologicalSorter_init_total G start2 endpoints2) as (g2 & Hg2 & _).
  set (l1 := fresh (dom σ)).
  set (σ1 := <[l1 := g1]> σ).
  set (l2 := fresh (dom σ1)).
  set (σ2 := <[l2 := g2]> σ1).
  assert (Hl1 : l1 ≠ self).
  { intros Heq. apply (is_fresh (dom σ)). fold l1. rewrite Heq.
    by apply elem_of_dom. }
  assert (H1self : σ1 !! self = Some G).
  { unfold σ1. by rewrite lookup_insert_ne. }
  assert (Hl2 : l2 ≠ self).
  { intros Heq. apply (is_fresh (dom σ1)). fold l2. rewrite Heq.
    by apply elem_of_dom. }
  assert (Hl12 : l1 ≠ l2).
  { intros Heq. apply (is_fresh (dom σ1)). fold l2. rewrite <- Heq.
    apply elem_of_dom. unfold σ1. rewrite lookup_insert_eq. done. }
  destruct (interleave_separate (direction_next d1) (direction_next d2) sched
              σ2 {| graph := l1 |} NotStarted {| graph := l2 |} NotStarted
              g1 g2) as (σ' & Hrun & Hframe).
  { done. }
  { cbn. unfold σ2, σ1. rewrite lookup_insert_ne by done.
    by rewrite lookup_insert_eq. }
  { cbn. unfold σ2. by rewrite lookup_insert_eq. }
  exists σ1, {| graph := l1 |}, σ2, {| graph := l2 |}, g1, g2, σ'.
  split. { unfold DAG_topsort. rewrite Hself. cbn. rewrite Hg1. done. }
  split. { unfold DAG_topsort. rewrite H1self. cbn. rewrite Hg2. done. }
  split; [done|]. split; [done|]. split; [done|]. split; [done|].
  split; [done|].
  assert (H2self : σ2 !! self = Some G).
  { unfold σ2. by rewrite lookup_insert_ne. }
  split; [done|]. split; [done|].
  rewrite Hframe; [done| |]; cbn; congruence.
Qed.

End frame.

Lemma sorts_leave_graph_unchanged_witness :
  ∃ σ1 s1 σ2 s2 g1 g2 σ',
    DAG_topsort {[ 1%positive := doc_graph ]} 1%positive [] [] = Some (σ1, s1) ∧
    DAG_topsort σ1 1%positive ["c"] [] = Some (σ2, s2) ∧
    TopologicalSorter_init doc_graph [] [] = Some g1 ∧
    TopologicalSorter_init doc_graph ["c"] [] = Some g2 ∧
    graph s1 ≠ 1%positive ∧ graph s2 ≠ 1%positive ∧ graph s1 ≠ graph s2 ∧
    σ2 !! 1%positive = Some doc_graph ∧
    interleave (direction_next Forward) (direction_next Reverse)
      [true; false; true] σ2 s1 NotStarted s2 NotStarted
    = Some (σ',
        (let r := gen_run (direction_next Forward)
                    (length (filter (λ b, b = true) [true; false; true]))
                    g1 NotStarted in
         (r.1.2, r.2)),
        (let r := gen_run (direction_next Reverse)
                    (length (filter (λ b, b = false) [true; false; true]))
                    g2 NotStarted in
         (r.1.2, r.2))) ∧
    σ' !! 1%positive = Some doc_graph.
Proof.
  apply (sorts_leave_graph_unchanged {[ 1%positive := doc_graph ]} 1%positive
           doc_graph [] [] ["c"] [] Forward Reverse [true; false; true]).
  vm_compute. reflexivity.
Defined.

(** ** The cycle report does not depend on the iteration order *)

Section report.
Context `{Countable K} `{!NodeOrder K}.
Implicit Types (members : list (K * K)) (sinks : gmap K K).

#[local] Instance edge_le_total : Total (edge_le (K:=K)).
Proof.
  intros [a1 b1] [a2 b2]. unfold edge_le. cbn.
  destruct (decide (a1 = a2)) as [->|Hne].
  - rewrite decide_True by done. apply (total node_le).
  - rewrite (decide_False (P:=a2 = a1)) by congruence. apply (total node_le).
Qed.

#[local] Instance edge_le_antisymm : AntiSymm (=) (edge_le (K:=K)).
Proof.
  intros [a1 b1] [a2 b2]. unfold edge_le. cbn.
  destruct (decide (a1 = a2)) as [->|Hne].
  - rewrite decide_True by done. intros H1 H2. f_equal.
    by apply (anti_symm node_le).
  - rewrite (decide_False (P:=a2 = a1)) by congruence. intros H1 H2.
    destruct Hne. by apply (anti_symm node_le).
Qed.

#[local] Instance edge_le_trans : Transitive (edge_le (K:=K)).
Proof.
  intros [a1 b1] [a2 b2] [a3 b3]. unfold edge_le. cbn. intros H12 H23.
  repeat case_decide; subst; try done;
    first [ by etrans
          | match goal with
            | Hne : ?x ≠ ?y |- _ =>
                destruct Hne; by apply (anti_symm node_le)
            end ].
Qed.

(** [sorted] returns the one sorted arrangement of its argument. *)
Lemma sorted_perm {A} (R : relation A) `{!RelDecision R}
    `{!Transitive R, !AntiSymm (=) R, !Total R} (l1 l2 : list A) :
  l1 ≡ₚ l2 → sorted R l1 = sorted R l2.
Proof.
  intros Hperm. unfold sorted.
  apply (Sorted_unique R); [apply Sorted_merge_sort; apply _..|].
  by rewrite !merge_sort_Permutation.
Qed.

Lemma CycleError_sinks_perm members1 members2 :
  members1 ≡ₚ members2 →
  CycleError_sinks members1 = CycleError_sinks members2.
Proof.
  intros Hperm. unfold CycleError_sinks. by rewrite (sorted_perm _ _ _ Hperm).
Qed.

Lemma CycleError_first_perm members1 members2 :
  members1 ≡ₚ members2 →
  CycleError_first members1 = CycleError_first members2.
Proof.
  intros Hperm. unfold CycleError_first.
  assert ((list_to_set members1.*1 : gset K) = list_to_set members2.*1) as ->;
    [|done].
  apply list_to_set_perm_L. by rewrite Hperm.
Qed.

(** The start of the walk is the least source. *)
Lemma CycleError_first_least members first :
  CycleError_first members = Some first →
  first ∈ members.*1 ∧ ∀ s, s ∈ members.*1 → node_le first s.
Proof.
  unfold CycleError_first, sorted.
  set (nodes := list_to_set members.*1 : gset K).
  intros Hhead.
  assert (Hsorted : StronglySorted node_le (merge_sort node_le (elements nodes)))
    by (apply StronglySorted_merge_sort; apply _).
  assert (Hmem : ∀ s, s ∈ merge_sort node_le (elements nodes) ↔ s ∈ members.*1).
  { intros s. rewrite merge_sort_Permutation, elem_of_elements.
    apply elem_of_list_to_set. }
  destruct (merge_sort node_le (elements nodes)) as [|x rest]; [done|].
  injection Hhead as ->.
  apply StronglySorted_cons in Hsorted as [Hall _].
  split; [apply Hmem; left|].
  intros s [->|Hs]%Hmem%elem_of_cons; [done|].
  by eapply Forall_forall in Hall.
Qed.

Lemma dict_snoc (l : list (K * K)) k v :
  dict (l ++ [(k, v)]) = <[k := v]> (dict l).
Proof. unfold dict. by rewrite foldl_snoc. Qed.

(** On a sorted sequence of pairs, [dict] keeps for every source its
    greatest sink, the sink of the last pair with that source. *)
Lemma dict_sorted_lookup (l : list (K * K)) s t :
  StronglySorted edge_le l →
  dict l !! s = Some t ↔
  (s, t) ∈ l ∧ ∀ t', (s, t') ∈ l → node_le t' t.
Proof.
  induction l as [|[a b] l IH] using rev_ind; intros Hsorted.
  - unfold dict. cbn. rewrite lookup_empty. split; [done|].
    by intros [?%elem_of_nil _].
  - apply StronglySorted_app in Hsorted as (Hle & Hl & _).
    rewrite dict_snoc. destruct (decide (a = s)) as [->|Hne].
    + rewrite lookup_insert_eq.
      assert (Hmax : ∀ t', (s, t') ∈ l ++ [(s, b)] → node_le t' b).
      { intros t' [Hin|Hin]%elem_of_app.
        - specialize (Hle (s, t') (s, b) Hin).
          unfold edge_le in Hle. cbn in Hle.
          rewrite decide_True in Hle by done. apply Hle. by left.
        - apply list_elem_of_singleton in Hin. by injection Hin as ->. }
      split.
      * intros [= <-]. split; [|done]. apply elem_of_app. right. by left.
      * intros [Hin Hall]. f_equal. apply (anti_symm node_le).
        -- apply Hall. apply elem_of_app. right. by left.
        -- by apply Hmax.
    + rewrite lookup_insert_ne by done. rewrite (IH Hl).
      assert (Hiff : ∀ t', (s, t') ∈ l ++ [(a, b)] ↔ (s, t') ∈ l).
      { intros t'. rewrite elem_of_app, list_elem_of_singleton. split.
        - intros [?|[= ? ?]]; [done|]. by destruct Hne.
        - by left. }
      rewrite Hiff. by setoid_rewrite Hiff.
Qed.

(** The successor of a source is its greatest sink. *)
Lemma CycleError_sinks_greatest members s t :
  CycleError_sinks members !! s = Some t ↔
  (s, t) ∈ members ∧ ∀ t', (s, t') ∈ members → node_le t' t.
Proof.
  unfold CycleError_sinks, sorted. rewrite dict_sorted_lookup
    by (apply StronglySorted_merge_sort; apply _).
  rewrite merge_sort_Permutation.
  by setoid_rewrite merge_sort_Permutation.
Qed.

Lemma CycleError_first_nonempty members :
  members ≠ [] → is_Some (CycleError_first members).
Proof.
  intros Hne. unfold CycleError_first, sorted.
  destruct members as [|[a b] members]; [done|].
  assert (Hin : a ∈ merge_sort node_le
                  (elements (list_to_set ((a, b) :: members).*1 : gset K))).
  { rewrite merge_sort_Permutation, elem_of_elements. cbn.
    by apply elem_of_union_l, elem_of_singleton. }
  destruct (merge_sort _ _); [by apply elem_of_nil in Hin|]. by eexists.
Qed.

(** C10: two evaluations of the report on the same residual edge set,
    delivered in whatever order the set iterates, give the same node
    sequence and the same message: the walk starts at the least source,
    and the successor of a source is its greatest sink, the sink of its
    last edge in sorted order. *)
Theorem CycleError_str_deterministic (repr : K → string) (fuel : nat)
    members1 members2 :
  members1 ≠ [] →
  members1 ≡ₚ members2 →
  CycleError_cycle fuel members1 = CycleError_cycle fuel members2 ∧
  CycleError_str repr fuel members1 = CycleError_str repr fuel members2 ∧
  (∃ first, CycleError_first members1 = Some first ∧
     first ∈ members1.*1 ∧ ∀ s, s ∈ members1.*1 → node_le first s) ∧
  (∀ s t, CycleError_sinks members1 !! s = Some t ↔
     (s, t) ∈ members1 ∧ ∀ t', (s, t') ∈ members1 → node_le t' t).
Proof.
  intros Hne Hperm.
  assert (Hcycle : CycleError_cycle fuel members1
                   = CycleError_cycle fuel members2).
  { unfold CycleError_cycle.
    by rewrite (CycleError_first_perm _ _ Hperm),
      (CycleError_sinks_perm _ _ Hperm). }
  split; [done|]. split.
  { unfold CycleError_str. by rewrite Hcycle. }
  split.
  - destruct (CycleError_first_nonempty members1 Hne) as [first Hfirst].
    exists first. split; [done|]. by apply CycleError_first_least.
  - apply CycleError_sinks_greatest.
Qed.

End report.

Lemma CycleError_str_deterministic_witness :
  CycleError_cycle 5 [("c", "d"); ("d", "c")]
  = CycleError_cycle 5 [("d", "c"); ("c", "d")] ∧
  CycleError_str repr_string 5 [("c", "d"); ("d", "c")]
  = CycleError_str repr_string 5 [("d", "c"); ("c", "d")] ∧
  (∃ first, CycleError_first [("c", "d"); ("d", "c")] = Some first ∧
     first ∈ [("c", "d"); ("d", "c")].*1 ∧
     ∀ s, s ∈ [("c", "d"); ("d", "c")].*1 → node_le first s) ∧
  (∀ s t, CycleError_sinks [("c", "d"); ("d", "c")] !! s = Some t ↔
     (s, t) ∈ [("c", "d"); ("d", "c")] ∧
     ∀ t', (s, t') ∈ [("c", "d"); ("d", "c")] → node_le t' t).
Proof.
  apply (CycleError_str_deterministic repr_string 5
           [("c", "d"); ("d", "c")] [("d", "c"); ("c", "d")]).
  - discriminate.
  - apply perm_swap.
Defined.

(** ** The generational sorter *)

Section sorter.
Context `{Countable K}.
Implicit Types (G E : gset (K * K)) (r ready : gset K).

Lemma exhaust_Suspended initial peel fuel G r :
  exhaust (gen_next initial peel) fuel G (Suspended r)
  = peel_loop peel fuel (peel G r).1 (peel G r).2.
Proof.
  revert G r. induction fuel as [|fuel IH]; intros G r; [done|].
  cbn [exhaust peel_loop gen_next].
  destruct (peel G r) as [G' r']. cbn [fst snd]. unfold loop_head.
  destruct (decide (r' = ∅)) as [->|Hr'].
  - by destruct (decide (G' = ∅)).
  - rewrite IH. by destruct (peel G' r') as [G'' r''].
Qed.

Lemma exhaust_NotStarted initial peel fuel G :
  exhaust (gen_next initial peel) (S fuel) G NotStarted
  = peel_loop peel (S fuel) G (initial G).
Proof.
  cbn [exhaust peel_loop gen_next]. unfold loop_head.
  destruct (decide (initial G = ∅)) as [Hr|Hr].
  - by destruct (decide (G = ∅)).
  - rewrite exhaust_Suspended. by destruct (peel G (initial G)) as [G' r'].
Qed.

Lemma elem_of_initial_no_incoming G u :
  u ∈ initial_no_incoming G ↔ u ∈ sources_of G ∧ u ∉ sinks_of G.
Proof.
  unfold initial_no_incoming. rewrite elem_of_map, elem_of_sources_of. split.
  - intros ([u' v] & -> & [Hns HG]%elem_of_filter). split; [by exists v|done].
  - intros [[v HG] Hns]. exists (u, v). split; [done|].
    by apply elem_of_filter.
Qed.

Lemma elem_of_peel_forward_graph G r e :
  e ∈ (peel_forward G r).1 ↔ e ∈ G ∧ e.1 ∉ r.
Proof.
  unfold peel_forward. cbn. rewrite elem_of_difference, elem_of_filter.
  split; [|tauto]. intros [HG Hn]. split; [done|]. tauto.
Qed.

Lemma elem_of_peel_forward_ready G r v :
  v ∈ (peel_forward G r).2 ↔
  (∃ u, u ∈ r ∧ (u, v) ∈ G) ∧ v ∉ sinks_of (peel_forward G r).1.
Proof.
  unfold peel_forward at 1. cbn. rewrite elem_of_map. split.
  - intros ([u v'] & -> & [Hall [Hu HG]%elem_of_filter]%elem_of_filter).
    cbn in *. split; [by exists u|].
    intros (u' & Hu')%elem_of_sinks_of. by apply (Hall _ Hu').
  - intros [(u & Hu & HG) Hns]. exists (u, v). split; [done|].
    apply elem_of_filter. split; [|by apply elem_of_filter].
    intros [u' v'] Hin ?. cbn in *. subst v'.
    apply Hns, elem_of_sinks_of. by exists u'.
Qed.

Lemma peel_forward_subseteq G r : (peel_forward G r).1 ⊆ G.
Proof. intros e He. by apply elem_of_peel_forward_graph in He as [? _]. Qed.

(** A round either removes an edge or is the last one. *)
Lemma peel_forward_progress G r :
  ((peel_forward G r).1 = G ∧ (peel_forward G r).2 = ∅) ∨
  size (peel_forward G r).1 < size G.
Proof.
  destruct (decide (filter (λ e : K * K, e.1 ∈ r) G = ∅)) as [Hout|Hout].
  - left. unfold peel_forward. cbn. rewrite Hout. split.
    + apply difference_empty_L.
    + apply set_eq. intros v. rewrite elem_of_map. split.
      * intros (e & _ & [_ He]%elem_of_filter). by apply not_elem_of_empty in He.
      * by intros ?%not_elem_of_empty.
  - right. apply subset_size. apply set_choose_L in Hout as [e He].
    apply elem_of_filter in He as [Her HeG].
    apply strict_spec_alt. split; [apply peel_forward_subseteq|].
    intros Heq. rewrite <- Heq in HeG.
    by apply elem_of_peel_forward_graph in HeG as [_ ?].
Qed.

Lemma peel_loop_terminates peel fuel :
  (∀ G r, ((peel G r).1 = G ∧ (peel G r).2 = ∅) ∨ size (peel G r).1 < size G) →
  ∀ G r,
    size G + (if decide (r = ∅) then 0 else 1) < fuel →
    (peel_loop peel fuel G r).2 ≠ OutOfFuel.
Proof.
  intros Hprog. induction fuel as [|fuel IH]; intros G r Hfuel; [lia|].
  cbn [peel_loop]. destruct (decide (r = ∅)) as [->|Hr].
  - cbn. by destruct (decide (G = ∅)).
  - specialize (IH (peel G r).1 (peel G r).2).
    destruct (peel G r) as [G' r'] eqn:Hpeel. cbn [fst snd] in IH.
    destruct (peel_loop peel fuel G' r') as [gs e]. cbn in *. apply IH.
    destruct (Hprog G r) as [[HG Hr']|Hlt]; rewrite Hpeel in *; cbn in *.
    + subst. rewrite decide_True by done. lia.
    + case_decide; lia.
Qed.

Lemma tc_flip_inv (R : relation K) x y : tc (flip R) x y → tc R y x.
Proof.
  induction 1 as [x y Hxy|x y z Hxy _ IH]; [by apply tc_once|by eapply tc_r].
Qed.

Lemma tc_last (R : relation K) x y : tc R x y → ∃ z, rtc R x z ∧ R z y.
Proof.
  induction 1 as [x y Hxy|x y z Hxy _ (w & Hyw & Hwz)].
  - by exists x.
  - exists w. split; [by eapply rtc_l|done].
Qed.

Lemma tc_mono (R1 R2 : relation K) x y :
  (∀ a b, R1 a b → R2 a b) → tc R1 x y → tc R2 x y.
Proof.
  intros Hsub. induction 1 as [x y Hxy|x y z Hxy _ IH].
  - by apply tc_once, Hsub.
  - eapply tc_l; [by apply Hsub|done].
Qed.

Lemma acyclic_subseteq G G' : G' ⊆ G → acyclic G → acyclic G'.
Proof.
  intros Hsub Hacyc x Hx. apply (Hacyc x).
  eapply tc_mono; [|done]. intros a b Hab. by apply Hsub.
Qed.

(** A non-empty acyclic edge set has a source that is no sink. *)
Lemma acyclic_has_root G :
  acyclic G → G ≠ ∅ → ∃ u, u ∈ sources_of G ∧ u ∉ sinks_of G.
Proof.
  intros Hacyc [[a b] Hab]%set_choose_L.
  assert (Hacc : ∀ x, Acc (edge_rel G) x).
  { intros x. change (sn (flip (edge_rel G)) x). apply tc_finite_sn.
    - intros y Hy. apply (Hacyc y). by apply tc_flip_inv.
    - exists (elements (sources_of G)). intros y (z & _ & Hzy)%tc_last.
      apply elem_of_elements, elem_of_sources_of. by exists z. }
  assert (Ha : a ∈ sources_of G) by (apply elem_of_sources_of; by exists b).
  clear Hab. induction (Hacc a) as [a _ IH].
  destruct (decide (a ∈ sinks_of G)) as [Hsink|Hsink]; [|by exists a].
  apply elem_of_sinks_of in Hsink as [c Hca].
  apply (IH c); [done|]. apply elem_of_sources_of. by exists a.
Qed.

Lemma tc_cycle_edge G x :
  tc (edge_rel G) x x → ∃ e, on_cycle G e.
Proof.
  intros Hx. inversion Hx as [? ? Hxx|? y ? Hxy Hyx]; subst.
  - exists (x, x). split; [done|]. apply rtc_refl.
  - exists (x, y). split; [done|]. by apply tc_rtc.
Qed.

(** An edge on a cycle is entered by an edge on a cycle. *)
Lemma on_cycle_incoming G e :
  on_cycle G e → ∃ c, on_cycle G (c, e.1).
Proof.
  destruct e as [a b]. intros [Hab Hba]. cbn in *.
  destruct (rtc_inv_r _ _ Hba) as [->|(y & Hby & Hya)].
  - exists a. by split.
  - exists y. split; [done|]. cbn. by eapply rtc_l.
Qed.

(** Edges on cycles are never peeled: the loop ends in [CycleError],
    and the residue holds them all. *)
Lemma peel_loop_cyclic G0 fuel :
  ∀ G r,
    (∀ v, v ∈ r → v ∉ sinks_of G) →
    (∀ e, on_cycle G0 e → e ∈ G) →
    (∃ e, on_cycle G0 e) →
    size G + (if decide (r = ∅) then 0 else 1) < fuel →
    ∃ gens res,
      peel_loop peel_forward fuel G r = (gens, CycleError res) ∧
      res ⊆ G ∧ ∀ e, on_cycle G0 e → e ∈ res.
Proof.
  induction fuel as [|fuel IH]; intros G r Hinv Hcyc Hex Hfuel; [lia|].
  cbn [peel_loop]. destruct (decide (r = ∅)) as [->|Hr].
  - destruct Hex as [e He]. rewrite decide_False.
    + by exists [], G.
    + intros ->. by apply Hcyc, not_elem_of_empty in He.
  - destruct (IH (peel_forward G r).1 (peel_forward G r).2)
      as (gens & res & Hloop & Hres & Hin).
    + intros v Hv. by apply elem_of_peel_forward_ready in Hv as [_ ?].
    + intros e He. apply elem_of_peel_forward_graph. split; [by apply Hcyc|].
      intros Her. apply (Hinv _ Her).
      destruct (on_cycle_incoming _ _ He) as [c Hc].
      apply elem_of_sinks_of. exists c. by apply Hcyc.
    + done.
    + destruct (peel_forward_progress G r) as [[-> ->]|Hlt].
      * rewrite decide_True by done. lia.
      * case_decide; lia.
    + destruct (peel_forward G r) as [G' r'] eqn:Hpeel. cbn [fst snd] in *.
      rewrite Hloop. exists (r :: gens), res. split; [done|]. split; [|done].
      etrans; [done|]. pose proof (peel_forward_subseteq G r) as Hsub.
      by rewrite Hpeel in Hsub.
Qed.

Lemma elem_of_flatten (gens : list (gset K)) v :
  v ∈ flatten gens ↔ ∃ i g, gens !! i = Some g ∧ v ∈ g.
Proof.
  unfold flatten. rewrite list_elem_of_bind. split.
  - intros (g & Hv%elem_of_elements & (i & Hi)%list_elem_of_lookup).
    by exists i, g.
  - intros (i & g & Hi & Hv). exists g. split; [by apply elem_of_elements|].
    by eapply list_elem_of_lookup_2.
Qed.

(** On an acyclic edge set the loop completes; every remaining node is
    yielded once, and sources come strictly before their sinks. *)
Lemma peel_loop_acyclic fuel :
  ∀ G r,
    acyclic G →
    (∀ v, v ∈ r → v ∉ sinks_of G) →
    (∀ u, u ∈ sources_of G → u ∉ sinks_of G → u ∈ r) →
    size G + (if decide (r = ∅) then 0 else 1) < fuel →
    ∃ gens,
      peel_loop peel_forward fuel G r = (gens, Completed) ∧
      NoDup (flatten gens) ∧
      (∀ v, v ∈ flatten gens ↔ v ∈ r ∨ v ∈ sinks_of G) ∧
      (∀ a b, (a, b) ∈ G →
         ∃ i j ga gb, gens !! i = Some ga ∧ gens !! j = Some gb ∧
                      a ∈ ga ∧ b ∈ gb ∧ i < j).
Proof.
  induction fuel as [|fuel IH]; intros G r Hacyc Hinv1 Hinv2 Hfuel; [lia|].
  cbn [peel_loop]. destruct (decide (r = ∅)) as [->|Hr].
  - assert (G = ∅) as ->.
    { destruct (decide (G = ∅)) as [|Hne]; [done|].
      destruct (acyclic_has_root G Hacyc Hne) as (u & Hu & Hnu).
      by apply Hinv2, not_elem_of_empty in Hu. }
    rewrite decide_True by done. exists []. split; [done|].
    split; [constructor|]. split.
    + intros v. split; [by intros ?%elem_of_nil|].
      intros [?%not_elem_of_empty|(u & ?%not_elem_of_empty)%elem_of_sinks_of];
        done.
    + intros a b ?%not_elem_of_empty. done.
  - pose proof (elem_of_peel_forward_graph G r) as HG'.
    pose proof (elem_of_peel_forward_ready G r) as Hr'.
    pose proof (peel_forward_progress G r) as Hprog.
    destruct (peel_forward G r) as [G' r'] eqn:Hpeel. cbn [fst snd] in *.
    assert (Hsinks : ∀ v, v ∈ r' ∨ v ∈ sinks_of G' ↔ v ∈ sinks_of G).
    { intros v. split.
      - intros [Hv|Hv].
        + apply Hr' in Hv as [(u & _ & Huv) _]. apply elem_of_sinks_of.
          by exists u.
        + apply elem_of_sinks_of in Hv as [u Huv]. apply elem_of_sinks_of.
          exists u. by apply HG'.
      - intros Hv. destruct (decide (v ∈ sinks_of G')) as [|Hnv]; [by right|].
        left. apply Hr'. split; [|done].
        apply elem_of_sinks_of in Hv as [u Huv]. exists u. split; [|done].
        destruct (decide (u ∈ r)) as [|Hnu]; [done|].
        destruct Hnv. apply elem_of_sinks_of. exists u. by apply HG'. }
    destruct (IH G' r') as (gens & Hloop & Hnodup & Hmem & Hord).
    + eapply acyclic_subseteq; [|done]. intros e He. by apply HG'.
    + intros v Hv. by apply Hr' in Hv as [_ ?].
    + intros u (w & Huw)%elem_of_sources_of Hnu.
      apply HG' in Huw as [Huw Hur]. cbn in Hur. apply Hr'. split; [|done].
      destruct (decide (u ∈ sinks_of G)) as [Hsink|Hsink].
      * apply elem_of_sinks_of in Hsink as [c Hcu]. exists c. split; [|done].
        destruct (decide (c ∈ r)) as [|Hnc]; [done|].
        destruct Hnu. apply elem_of_sinks_of. exists c. by apply HG'.
      * destruct Hur. apply Hinv2; [|done]. apply elem_of_sources_of.
        by exists w.
    + destruct Hprog as [[-> ->]|Hlt].
      * rewrite decide_True by done. lia.
      * case_decide; lia.
    + rewrite Hloop. exists (r :: gens). split; [done|].
      assert (Hflat : flatten (r :: gens) = elements r ++ flatten gens)
        by done.
      rewrite Hflat. split; [|split].
      * apply NoDup_app. split; [apply NoDup_elements|]. split; [|done].
        intros v Hv%elem_of_elements Hv'. apply (Hinv1 v Hv).
        by apply Hsinks, Hmem.
      * intros v. rewrite elem_of_app, elem_of_elements, Hmem, Hsinks. done.
      * intros a b Hab.
        destruct (decide (a ∈ r)) as [Har|Har].
        -- assert (Hb : b ∈ flatten gens).
           { apply Hmem, Hsinks, elem_of_sinks_of. by exists a. }
           apply elem_of_flatten in Hb as (j & gb & Hj & Hb).
           exists 0, (S j), r, gb. repeat split; [done..|lia].
        -- destruct (Hord a b) as (i & j & ga & gb & Hi & Hj & Ha & Hb & Hlt).
           { by apply HG'. }
           exists (S i), (S j), ga, gb. repeat split; [done..|lia].
Qed.

Lemma forward_sort_peel_loop G :
  forward_sort G
  = peel_loop peel_forward (S (size G + 2)) G (initial_no_incoming G).
Proof.
  unfold forward_sort, enough_fuel, iter_next.
  replace (size G + 3) with (S (size G + 2)) by lia.
  apply exhaust_NotStarted.
Qed.

(** Exhausting the forward sort never needs more fuel than it is given:
    it completes or raises [CycleError]. *)
Lemma forward_sort_terminates G : (forward_sort G).2 ≠ OutOfFuel.
Proof.
  rewrite forward_sort_peel_loop.
  apply peel_loop_terminates; [apply peel_forward_progress|].
  case_decide; lia.
Qed.

Lemma initial_no_incoming_inv G :
  (∀ v, v ∈ initial_no_incoming G → v ∉ sinks_of G) ∧
  (∀ u, u ∈ sources_of G → u ∉ sinks_of G → u ∈ initial_no_incoming G).
Proof.
  split.
  - intros v Hv. by apply elem_of_initial_no_incoming in Hv as [_ ?].
  - intros u Hu Hnu. by apply elem_of_initial_no_incoming.
Qed.

(** An edge set whose edges all go up in some rank has no cycle. *)
Lemma acyclic_ranked E (rank : K → nat) :
  set_Forall (λ e, rank e.1 < rank e.2) E → acyclic E.
Proof.
  intros Hrank x Hx.
  assert (Hlt : ∀ a b, tc (edge_rel E) a b → rank a < rank b).
  { induction 1 as [a b Hab|a b c Hab _ IH].
    - apply (Hrank _ Hab).
    - specialize (Hrank _ Hab). cbn in Hrank. lia. }
  specialize (Hlt x x Hx). lia.
Qed.

(** C1: the forward sort of an acyclic edge set, with no starts and no
    endpoints, completes; the generations flattened in order hold every
    node of the edge set exactly once, and the generation of the source
    of an edge comes strictly before the generation of its sink. *)
Theorem forward_sort_acyclic E :
  acyclic E →
  ∃ gens,
    TopologicalSorter_init E [] [] = Some E ∧
    forward_sort E = (gens, Completed) ∧
    NoDup (flatten gens) ∧
    (∀ v, v ∈ flatten gens ↔ v ∈ sources_of E ∪ sinks_of E) ∧
    (∀ a b, (a, b) ∈ E →
       ∃ i j ga gb, gens !! i = Some ga ∧ gens !! j = Some gb ∧
                    a ∈ ga ∧ b ∈ gb ∧ i < j).
Proof.
  intros Hacyc. destruct (initial_no_incoming_inv E) as [Hinv1 Hinv2].
  destruct (peel_loop_acyclic (S (size E + 2)) E (initial_no_incoming E))
    as (gens & Hloop & Hnodup & Hmem & Hord); [done..| |].
  { case_decide; lia. }
  exists gens. rewrite forward_sort_peel_loop.
  split; [done|]. split; [done|]. split; [done|]. split; [|done].
  intros v. rewrite Hmem, elem_of_union, elem_of_initial_no_incoming.
  destruct (decide (v ∈ sinks_of E)); tauto.
Qed.

End sorter.

Lemma forward_sort_acyclic_witness :
  ∃ gens,
    TopologicalSorter_init doc_graph [] [] = Some doc_graph ∧
    forward_sort doc_graph = (gens, Completed) ∧
    NoDup (flatten gens) ∧
    (∀ v, v ∈ flatten gens ↔ v ∈ sources_of doc_graph ∪ sinks_of doc_graph) ∧
    (∀ a b, (a, b) ∈ doc_graph →
       ∃ i j ga gb, gens !! i = Some ga ∧ gens !! j = Some gb ∧
                    a ∈ ga ∧ b ∈ gb ∧ i < j).
Proof.
  apply (forward_sort_acyclic doc_graph).
  apply (acyclic_ranked doc_graph doc_rank).
  apply (bool_decide_unpack _). vm_compute. exact I.
Defined.

(** ** Cycle detection and the cycle report *)

Section cycle.
Context `{Countable K} `{!NodeOrder K}.

Lemma walk_spec (sinks : gmap K K) first fuel :
  ∀ prev node rest,
    sinks !! prev = Some node →
    walk fuel sinks first node = Some (Return rest) →
    (∀ i a b, (prev :: rest) !! i = Some a → (prev :: rest) !! S i = Some b →
              sinks !! a = Some b) ∧
    ∃ a, last (prev :: rest) = Some a ∧ sinks !! a = Some first.
Proof.
  induction fuel as [|fuel IH]; intros prev node rest Hprev Hwalk; [done|].
  rewrite walk_step in Hwalk. destruct (decide (node = first)) as [->|Hne].
  - injection Hwalk as <-. split.
    + intros i a b _ Hb. by destruct i.
    + by exists prev.
  - destruct (sinks !! node) as [node'|] eqn:Hnode; [|done].
    destruct (walk fuel sinks first node') as [[rest'|e]|] eqn:Hrec;
      [|done..].
    injection Hwalk as <-.
    destruct (IH node node' rest' Hnode Hrec) as [Hcons Hlast]. split.
    + intros [|i] a b Ha Hb.
      * injection Ha as <-. by injection Hb as <-.
      * by apply (Hcons i).
    + done.
Qed.

Lemma CycleError_cycle_walk (E : gset (K * K)) members fuel c :
  (∀ e, e ∈ members ↔ e ∈ E) →
  CycleError_cycle fuel members = Some (Return c) →
  cyclic_walk E c.
Proof.
  intros Hmem. unfold CycleError_cycle.
  destruct (CycleError_first members) as [first|]; [|done].
  destruct (CycleError_sinks members !! first) as [node|] eqn:Hfirst; [|done].
  destruct (walk fuel _ first node) as [[rest|e]|] eqn:Hwalk; [|done..].
  intros [= <-].
  destruct (walk_spec _ _ _ _ _ _ Hfirst Hwalk) as [Hcons (a & Hlast & Ha)].
  split.
  - intros i x y Hx Hy. apply Hmem.
    by apply CycleError_sinks_greatest, (Hcons i).
  - exists a, first. split; [done|]. split; [done|].
    apply Hmem. by apply CycleError_sinks_greatest.
Qed.

(** C2 as the code has it: an edge set with a cycle, after the filtering
    asked for, makes the exhausted forward sort raise [CycleError] with a
    non-empty residue that keeps every edge lying on a cycle; and the
    sequence the report lists, when its walk returns, is joined by
    residual edges from each node to the next and from the last node
    back to the first, which is not listed a second time. *)
Theorem forward_sort_cycle_report
    (E G : gset (K * K)) (start endpoints : list K) :
  TopologicalSorter_init E start endpoints = Some G →
  (∃ x, tc (edge_rel G) x x) →
  ∃ gens residual,
    forward_sort G = (gens, CycleError residual) ∧
    residual ≠ ∅ ∧ residual ⊆ G ∧
    (∀ e, on_cycle G e → e ∈ residual) ∧
    ∀ fuel members c,
      members ≡ₚ elements residual →
      CycleError_cycle fuel members = Some (Return c) →
      cyclic_walk residual c.
Proof.
  intros _ [x Hx]. destruct (tc_cycle_edge G x Hx) as [e0 He0].
  destruct (initial_no_incoming_inv G) as [Hinv1 _].
  destruct (peel_loop_cyclic G (S (size G + 2)) G (initial_no_incoming G))
    as (gens & residual & Hloop & Hsub & Hcyc);
    [done|by intros e [? _]|by exists e0| |].
  { case_decide; lia. }
  exists gens, residual. rewrite forward_sort_peel_loop.
  split; [done|]. split.
  { intros ->. by apply Hcyc, not_elem_of_empty in He0. }
  split; [done|]. split; [done|].
  intros fuel members c Hperm. apply CycleError_cycle_walk.
  intros e. by rewrite Hperm, elem_of_elements.
Qed.

End cycle.

Lemma doc_cyclic_has_cycle :
  ∃ x, tc (edge_rel (DAG_add doc_graph ("d", "c"))) x x.
Proof.
  exists "c". apply (tc_l _ _ "d").
  - unfold edge_rel. vm_compute. reflexivity.
  - apply tc_once. unfold edge_rel. vm_compute. reflexivity.
Qed.

(** C2 as stated fails on the graph of the docstring with the edge
    [d -> c] added: the sort raises [CycleError], the report lists
    ['c', 'd'], and its first node is not its last. *)
Lemma forward_sort_cycle_report_not_closed :
  (∃ x, tc (edge_rel (DAG_add doc_graph ("d", "c"))) x x) ∧
  forward_sort (DAG_add doc_graph ("d", "c"))
  = ([ {["a"]}; {["b"]} ], CycleError doc_residual) ∧
  CycleError_cycle 5 (elements doc_residual) = Some (Return ["c"; "d"]) ∧
  ¬ closed_walk doc_residual ["c"; "d"].
Proof.
  split; [apply doc_cyclic_has_cycle|].
  split; [vm_compute; reflexivity|].
  split; [vm_compute; reflexivity|].
  intros [_ Heq]. discriminate Heq.
Qed.

Lemma forward_sort_cycle_report_witness :
  ∃ gens residual,
    forward_sort (DAG_add doc_graph ("d", "c")) = (gens, CycleError residual) ∧
    residual ≠ ∅ ∧ residual ⊆ DAG_add doc_graph ("d", "c") ∧
    (∀ e, on_cycle (DAG_add doc_graph ("d", "c")) e → e ∈ residual) ∧
    ∀ fuel members c,
      members ≡ₚ elements residual →
      CycleError_cycle fuel members = Some (Return c) →
      cyclic_walk residual c.
Proof.
  apply (forward_sort_cycle_report (DAG_add doc_graph ("d", "c"))
           (DAG_add doc_graph ("d", "c")) [] []).
  - reflexivity.
  - apply doc_cyclic_has_cycle.
Defined.

(** ** Forward and reverse sort of a chain *)

Section chain.
Context `{Countable K}.
Implicit Types (G E : gset (K * K)) (r ready : gset K) (l : list K).

Lemma elem_of_inverse G a b : (a, b) ∈ inverse G ↔ (b, a) ∈ G.
Proof.
  unfold inverse. rewrite elem_of_map. split.
  - intros ([b' a'] & [= -> ->] & HG). done.
  - intros HG. by exists (b, a).
Qed.

Lemma inverse_inverse G : inverse (inverse G) = G.
Proof.
  apply set_eq. intros [a b]. by rewrite !elem_of_inverse.
Qed.

Lemma inverse_empty_iff G : inverse G = ∅ ↔ G = ∅.
Proof.
  split.
  - intros Hinv. apply set_eq. intros [a b]. split; [|by intros ?%not_elem_of_empty].
    intros Hab.
    assert (Hin : (b, a) ∈ inverse G) by by apply elem_of_inverse.
    by rewrite Hinv in Hin.
  - intros ->. apply set_eq. intros [a b]. rewrite elem_of_inverse.
    split; by intros ?%not_elem_of_empty.
Qed.

Lemma sources_of_inverse G : sources_of (inverse G) = sinks_of G.
Proof.
  apply set_eq. intros v. rewrite elem_of_sources_of, elem_of_sinks_of.
  by setoid_rewrite elem_of_inverse.
Qed.

Lemma sinks_of_inverse G : sinks_of (inverse G) = sources_of G.
Proof.
  apply set_eq. intros v. rewrite elem_of_sources_of, elem_of_sinks_of.
  by setoid_rewrite elem_of_inverse.
Qed.

Lemma elem_of_initial_no_outgoing G v :
  v ∈ initial_no_outgoing G ↔ v ∈ sinks_of G ∧ v ∉ sources_of G.
Proof.
  unfold initial_no_outgoing. rewrite elem_of_map, elem_of_sinks_of. split.
  - intros ([u v'] & -> & [Hns HG]%elem_of_filter). split; [by exists u|done].
  - intros [[u HG] Hns]. exists (u, v). split; [done|].
    by apply elem_of_filter.
Qed.

Lemma initial_no_outgoing_inverse G :
  initial_no_outgoing G = initial_no_incoming (inverse G).
Proof.
  apply set_eq. intros v.
  by rewrite elem_of_initial_no_outgoing, elem_of_initial_no_incoming,
    sources_of_inverse, sinks_of_inverse.
Qed.

Lemma elem_of_peel_reverse_graph G r e :
  e ∈ (peel_reverse G r).1 ↔ e ∈ G ∧ e.2 ∉ r.
Proof.
  unfold peel_reverse. cbn. rewrite elem_of_difference, elem_of_filter.
  split; [|tauto]. intros [HG Hn]. split; [done|]. tauto.
Qed.

Lemma elem_of_peel_reverse_ready G r u :
  u ∈ (peel_reverse G r).2 ↔
  (∃ v, v ∈ r ∧ (u, v) ∈ G) ∧ u ∉ sources_of (peel_reverse G r).1.
Proof.
  unfold peel_reverse at 1. cbn. rewrite elem_of_map. split.
  - intros ([u' v] & -> & [Hall [Hv HG]%elem_of_filter]%elem_of_filter).
    cbn in *. split; [by exists v|].
    intros (v' & Hv')%elem_of_sources_of. by apply (Hall _ Hv').
  - intros [(v & Hv & HG) Hns]. exists (u, v). split; [done|].
    apply elem_of_filter. split; [|by apply elem_of_filter].
    intros [u' v'] Hin ?. cbn in *. subst u'.
    apply Hns, elem_of_sources_of. by exists v'.
Qed.

Lemma peel_reverse_inverse G r :
  peel_reverse G r
  = (inverse (peel_forward (inverse G) r).1, (peel_forward (inverse G) r).2).
Proof.
  assert (HG : (peel_reverse G r).1 = inverse (peel_forward (inverse G) r).1).
  { apply set_eq. intros [a b].
    rewrite elem_of_peel_reverse_graph, elem_of_inverse,
      elem_of_peel_forward_graph, elem_of_inverse. done. }
  rewrite (surjective_pairing (peel_reverse G r)). f_equal; [done|].
  apply set_eq. intros u.
  rewrite elem_of_peel_reverse_ready, elem_of_peel_forward_ready, HG,
    sources_of_inverse.
  by setoid_rewrite elem_of_inverse.
Qed.

(** The reverse sort is the forward sort of the inverted edge set. *)
Lemma peel_loop_reverse fuel :
  ∀ G r,
    peel_loop peel_reverse fuel G r
    = ((peel_loop peel_forward fuel (inverse G) r).1,
       sort_end_inverse (peel_loop peel_forward fuel (inverse G) r).2).
Proof.
  induction fuel as [|fuel IH]; intros G r; [done|].
  cbn [peel_loop]. destruct (decide (r = ∅)) as [Hr|Hr].
  - cbn. destruct (decide (G = ∅)) as [->|HG].
    + rewrite (decide_True (P:=inverse ∅ = ∅)); [done|].
      by apply (proj2 (inverse_empty_iff ∅)).
    + rewrite (decide_False (P:=inverse G = ∅)).
      * cbn. by rewrite inverse_inverse.
      * intros Hi. by apply HG, inverse_empty_iff.
  - rewrite peel_reverse_inverse, IH, inverse_inverse.
    destruct (peel_forward (inverse G) r) as [G' r']. cbn [fst snd].
    by destruct (peel_loop peel_forward fuel G' r') as [gs e].
Qed.

Lemma chain_cons2 x y l : chain (x :: y :: l) = {[ (x, y) ]} ∪ chain (y :: l).
Proof. done. Qed.

Lemma elem_of_chain l a b :
  (a, b) ∈ chain l ↔ ∃ l1 l2, l = l1 ++ a :: b :: l2.
Proof.
  induction l as [|x [|y l] IH].
  - split; [by intros ?%not_elem_of_empty|].
    intros (l1 & l2 & Hl). by destruct l1.
  - split; [by intros ?%not_elem_of_empty|].
    intros (l1 & l2 & Hl). destruct l1 as [|? [|? ?]]; done.
  - rewrite chain_cons2, elem_of_union, elem_of_singleton, IH. split.
    + intros [[= -> ->]|(l1 & l2 & ->)].
      * by exists [], l.
      * by exists (x :: l1), l2.
    + intros (l1 & l2 & Hl). destruct l1 as [|x' l1].
      * left. by injection Hl as -> -> _.
      * right. injection Hl as -> Hl. by exists l1, l2.
Qed.

Lemma chain_ends l a b : (a, b) ∈ chain l → a ∈ l ∧ b ∈ tail l.
Proof.
  intros (l1 & l2 & ->)%elem_of_chain. split.
  - apply elem_of_app. right. by left.
  - destruct l1 as [|x l1]; cbn.
    + by left.
    + apply elem_of_app. right. right. by left.
Qed.

Lemma chain_has_sink l x v : v ∈ l → ∃ u, (u, v) ∈ chain (x :: l).
Proof.
  revert x. induction l as [|y l IH]; intros x Hv; [by apply elem_of_nil in Hv|].
  apply elem_of_cons in Hv as [->|Hv].
  - exists x. rewrite chain_cons2. by apply elem_of_union_l, elem_of_singleton.
  - destruct (IH y Hv) as [u Hu]. exists u. rewrite chain_cons2.
    by apply elem_of_union_r.
Qed.

Lemma inverse_chain l : inverse (chain l) = chain (reverse l).
Proof.
  apply set_eq. intros [a b]. rewrite elem_of_inverse, !elem_of_chain. split.
  - intros (l1 & l2 & ->). exists (reverse l2), (reverse l1).
    rewrite reverse_app, !reverse_cons, <- !(assoc_L (++)). done.
  - intros (l1 & l2 & Hl). exists (reverse l2), (reverse l1).
    rewrite <- (reverse_involutive l), Hl.
    rewrite reverse_app, !reverse_cons, <- !(assoc_L (++)). done.
Qed.

Lemma size_chain x l : NoDup (x :: l) → size (chain (x :: l)) = length l.
Proof.
  revert x. induction l as [|y l IH]; intros x Hnd; [apply size_empty|].
  apply NoDup_cons in Hnd as [Hx Hnd].
  rewrite chain_cons2, size_union, size_singleton, IH by
    (try done; apply disjoint_singleton_l; by intros [? _]%chain_ends).
  done.
Qed.

Lemma peel_forward_chain x y l :
  NoDup (x :: y :: l) →
  peel_forward (chain (x :: y :: l)) {[ x ]} = (chain (y :: l), {[ y ]}).
Proof.
  intros [Hx [Hy Hnd]%NoDup_cons]%NoDup_cons.
  assert (HG : (peel_forward (chain (x :: y :: l)) {[ x ]}).1 = chain (y :: l)).
  { apply set_eq. intros [a b].
    rewrite elem_of_peel_forward_graph, chain_cons2, elem_of_union,
      !elem_of_singleton. cbn [fst snd]. split.
    - intros [[[= -> ->]|Hab] Hne]; done.
    - intros Hab. split; [by right|]. intros ->.
      by apply chain_ends in Hab as [? _]. }
  rewrite (surjective_pairing (peel_forward _ _)). f_equal; [done|].
  apply set_eq. intros v.
  rewrite elem_of_peel_forward_ready, HG, elem_of_singleton. split.
  - intros [(u & ->%elem_of_singleton & Huv) _].
    rewrite chain_cons2 in Huv.
    apply elem_of_union in Huv as [[= ->]%elem_of_singleton|Huv]; [done|].
    by apply chain_ends in Huv as [? _].
  - intros ->. split.
    + exists x. split; [by apply elem_of_singleton|].
      rewrite chain_cons2. by apply elem_of_union_l, elem_of_singleton.
    + intros (u & Hu%chain_ends)%elem_of_sinks_of. by destruct Hu as [_ ?].
Qed.

Lemma peel_forward_empty r : peel_forward (K:=K) ∅ r = (∅, ∅).
Proof.
  assert (H1 : (peel_forward (K:=K) ∅ r).1 = ∅).
  { apply set_eq. intros e. rewrite elem_of_peel_forward_graph.
    split; [by intros [? _]|by intros ?%not_elem_of_empty]. }
  assert (H2 : (peel_forward (K:=K) ∅ r).2 = ∅).
  { apply set_eq. intros v. rewrite elem_of_peel_forward_ready.
    split; [|by intros ?%not_elem_of_empty].
    by intros [(u & _ & ?%not_elem_of_empty) _]. }
  destruct (peel_forward ∅ r) as [G' r']. cbn in *. by subst.
Qed.

Lemma peel_loop_empty peel fuel :
  peel_loop (K:=K) peel (S fuel) ∅ ∅ = ([], Completed).
Proof. cbn. by rewrite !decide_True by done. Qed.

(** The forward loop walks down a chain one node per generation. *)
Lemma peel_loop_chain l :
  ∀ x fuel,
    NoDup (x :: l) → length l + 2 ≤ fuel →
    peel_loop peel_forward fuel (chain (x :: l)) {[ x ]}
    = ((λ v, {[ v ]}) <$> (x :: l), Completed).
Proof.
  induction l as [|y l IH]; intros x fuel Hnd Hfuel.
  - destruct fuel as [|[|fuel]]; [cbn in Hfuel; lia..|].
    cbn [peel_loop chain].
    rewrite decide_False by (apply non_empty_singleton_L).
    rewrite peel_forward_empty. cbn [peel_loop].
    by rewrite !decide_True by done.
  - destruct fuel as [|fuel]; [cbn in Hfuel; lia|].
    cbn [peel_loop].
    rewrite decide_False by (apply non_empty_singleton_L).
    rewrite (peel_forward_chain x y l Hnd).
    rewrite (IH y fuel); [done| |cbn in Hfuel; lia].
    by apply NoDup_cons in Hnd as [_ ?].
Qed.

Lemma initial_no_incoming_chain x y l :
  NoDup (x :: y :: l) →
  initial_no_incoming (chain (x :: y :: l)) = {[ x ]}.
Proof.
  intros Hnd. apply set_eq. intros u.
  rewrite elem_of_initial_no_incoming, elem_of_singleton,
    elem_of_sources_of, elem_of_sinks_of. split.
  - intros [(v & Huv) Hns].
    apply chain_ends in Huv as [[->|Hu]%elem_of_cons _]; [done|].
    destruct Hns. by apply chain_has_sink.
  - intros ->. split.
    + exists y. rewrite chain_cons2. by apply elem_of_union_l, elem_of_singleton.
    + intros (u & [_ Hx]%chain_ends). cbn in Hx.
      by apply NoDup_cons in Hnd as [? _].
Qed.

Lemma initial_no_incoming_empty : initial_no_incoming (K:=K) ∅ = ∅.
Proof.
  apply set_eq. intros u. rewrite elem_of_initial_no_incoming,
    elem_of_sources_of. split; [|by intros ?%not_elem_of_empty].
  by intros [(v & ?%not_elem_of_empty) _].
Qed.

Lemma forward_sort_chain l :
  NoDup l → forward_sort (chain l) = (chain_generations l, Completed).
Proof.
  intros Hnd. rewrite forward_sort_peel_loop.
  destruct l as [|x [|y l]].
  - cbn [chain]. rewrite initial_no_incoming_empty. apply peel_loop_empty.
  - cbn [chain]. rewrite initial_no_incoming_empty. apply peel_loop_empty.
  - rewrite initial_no_incoming_chain by done.
    apply peel_loop_chain; [done|].
    rewrite size_chain by done. cbn. lia.
Qed.

Lemma chain_generations_reverse l :
  chain_generations (reverse l) = reverse (chain_generations l).
Proof.
  destruct l as [|x [|y l]]; [done..|].
  unfold chain_generations at 2. rewrite <- fmap_reverse.
  destruct (reverse (x :: y :: l)) as [|x' [|y' l']] eqn:Hl; [| |done].
  - apply (f_equal length) in Hl. rewrite length_reverse in Hl. done.
  - apply (f_equal length) in Hl. rewrite length_reverse in Hl. done.
Qed.

Lemma reverse_sort_forward_sort G :
  reverse_sort G
  = ((forward_sort (inverse G)).1, sort_end_inverse (forward_sort (inverse G)).2).
Proof.
  rewrite forward_sort_peel_loop. unfold reverse_sort, enough_fuel, reversed_next.
  replace (size G + 3) with (S (size G + 2)) by lia.
  rewrite exhaust_NotStarted, peel_loop_reverse, initial_no_outgoing_inverse.
  assert (size (inverse G) = size G) as ->; [|done].
  unfold inverse, set_map. rewrite size_list_to_set.
  - by rewrite length_fmap.
  - apply NoDup_fmap_2; [|apply NoDup_elements].
    intros [a b] [c d] [= -> ->]. done.
Qed.

(** C6: on a simple chain over distinct nodes both sorts complete, the
    reverse sort yields the generations of the forward sort in the
    opposite order, so they are the same family of generation sets; for
    a chain with at least one edge every node is a generation of its
    own. *)
Theorem chain_forward_reverse l :
  NoDup l →
  ∃ fgens rgens,
    forward_sort (chain l) = (fgens, Completed) ∧
    reverse_sort (chain l) = (rgens, Completed) ∧
    rgens = reverse fgens ∧
    fgens ≡ₚ rgens ∧
    (2 ≤ length l → fgens = (λ v, {[ v ]}) <$> l).
Proof.
  intros Hnd.
  assert (Hrev : NoDup (reverse l)) by by rewrite reverse_Permutation.
  pose proof (forward_sort_chain l Hnd) as Hf.
  pose proof (forward_sort_chain (reverse l) Hrev) as Hr.
  rewrite <- inverse_chain, chain_generations_reverse in Hr.
  exists (chain_generations l), (reverse (chain_generations l)).
  split; [done|]. split.
  { rewrite reverse_sort_forward_sort, Hr. done. }
  split; [done|]. split.
  - by rewrite reverse_Permutation.
  - intros Hlen. by destruct l as [|x [|y l]]; [cbn in Hlen; lia..|].
Qed.

End chain.

Lemma chain_forward_reverse_witness :
  ∃ fgens rgens,
    forward_sort (chain ["a"; "b"; "c"]) = (fgens, Completed) ∧
    reverse_sort (chain ["a"; "b"; "c"]) = (rgens, Completed) ∧
    rgens = reverse fgens ∧
    fgens ≡ₚ rgens ∧
    (2 ≤ length ["a"; "b"; "c"] → fgens = (λ v, {[ v ]}) <$> ["a"; "b"; "c"]).
Proof.
  apply (chain_forward_reverse ["a"; "b"; "c"]).
  apply (bool_decide_unpack _). vm_compute. exact I.
Defined.

Example chain_abc :
  forward_sort (chain ["a"; "b"; "c"]) = ([ {["a"]}; {["b"]}; {["c"]} ], Completed) ∧
  reverse_sort (chain ["a"; "b"; "c"]) = ([ {["c"]}; {["b"]}; {["a"]} ], Completed).
Proof. split; vm_compute; reflexivity. Qed.

(** ** Generations of an arbitrary edge set *)

Section generations.
Context `{Countable K}.
Implicit Types (G E : gset (K * K)) (r ready Y : gset K).

(** What the loop keeps true on any edge set [E], cyclic or not: [Y]
    holds the nodes yielded so far. *)
Lemma peel_loop_invariant E fuel :
  ∀ G r Y gens e,
    (∀ v, v ∈ r → v ∉ sinks_of G) →
    (∀ u, u ∈ sources_of G → u ∉ sinks_of G → u ∈ r) →
    G ⊆ E →
    (∀ a b, (a, b) ∈ E → (a, b) ∉ G → a ∈ Y) →
    (∀ v, v ∈ Y → (v ∉ sinks_of G) ∧ (v ∉ sources_of G) ∧ (v ∉ r)) →
    peel_loop peel_forward fuel G r = (gens, e) →
    NoDup (flatten gens) ∧
    (∀ v, v ∈ flatten gens → v ∉ Y) ∧
    (∀ i j ga gb a b,
       gens !! i = Some ga → gens !! j = Some gb →
       a ∈ ga → b ∈ gb → (a, b) ∈ E → i < j) ∧
    (∀ res, e = CycleError res →
       res ⊆ G ∧ res ≠ ∅ ∧ sources_of res ⊆ sinks_of res ∧
       ∀ v, v ∈ Y ∨ v ∈ flatten gens →
            (v ∉ sources_of res) ∧ (v ∉ sinks_of res)).
Proof.
  induction fuel as [|fuel IH];
    intros G r Y gens e Hinv1 Hinv2 HGE Hgone HY Hloop.
  { injection Hloop as <- <-. split; [constructor|].
    split; [by intros v ?%elem_of_nil|]. split; [by intros [|?] ?|done]. }
  cbn [peel_loop] in Hloop. destruct (decide (r = ∅)) as [->|Hr].
  - injection Hloop as <- He. split; [constructor|].
    split; [by intros v ?%elem_of_nil|]. split; [by intros [|?] ?|].
    intros res ->. destruct (decide (G = ∅)) as [|HG]; [done|].
    injection He as <-. split; [done|]. split; [done|]. split.
    + intros u Hu. destruct (decide (u ∈ sinks_of G)) as [|Hnu]; [done|].
      by apply Hinv2, not_elem_of_empty in Hu.
    + intros v [Hv|Hv%elem_of_nil]; [|done]. by destruct (HY v Hv) as (? & ? & _).
  - pose proof (elem_of_peel_forward_graph G r) as HG'.
    pose proof (elem_of_peel_forward_ready G r) as Hr'.
    destruct (peel_forward G r) as [G' r'] eqn:Hpeel. cbn [fst snd] in *.
    destruct (peel_loop peel_forward fuel G' r') as [gens' e'] eqn:Hrec.
    injection Hloop as <- <-.
    assert (Hsub : G' ⊆ G) by (intros x Hx; by apply HG').
    assert (Hsinks : ∀ v, v ∈ sinks_of G' → v ∈ sinks_of G).
    { intros v (u & Hu)%elem_of_sinks_of. apply elem_of_sinks_of. exists u.
      by apply Hsub. }
    destruct (IH G' r' (Y ∪ r) gens' e') as (Hnodup & Hfresh & Hord & Hres);
      [| | | | |done|].
    + intros v Hv. by apply Hr' in Hv as [_ ?].
    + intros u (w & Huw)%elem_of_sources_of Hnu.
      apply HG' in Huw as [Huw Hur]. cbn in Hur. apply Hr'. split; [|done].
      destruct (decide (u ∈ sinks_of G)) as [Hsink|Hsink].
      * apply elem_of_sinks_of in Hsink as [c Hcu]. exists c. split; [|done].
        destruct (decide (c ∈ r)) as [|Hnc]; [done|].
        destruct Hnu. apply elem_of_sinks_of. exists c. by apply HG'.
      * destruct Hur. apply Hinv2; [|done]. apply elem_of_sources_of.
        by exists w.
    + by etrans.
    + intros a b Hab Hnab. destruct (decide ((a, b) ∈ G)) as [HabG|HabG].
      * apply elem_of_union_r. destruct (decide (a ∈ r)) as [|Hna]; [done|].
        destruct Hnab. by apply HG'.
      * apply elem_of_union_l. by apply (Hgone a b).
    + intros v [Hv|Hv]%elem_of_union.
      * destruct (HY v Hv) as (Hv1 & Hv2 & Hv3). split; [auto|]. split.
        -- intros (w & Hw)%elem_of_sources_of. apply Hv2.
           apply elem_of_sources_of. exists w. by apply Hsub.
        -- intros [(u & _ & Huv) _]%Hr'. apply Hv1, elem_of_sinks_of.
           by exists u.
      * split; [by intros ?%Hsinks%(Hinv1 v Hv)|]. split.
        -- intros (w & [_ Hw]%HG')%elem_of_sources_of. done.
        -- intros [(u & _ & Huv) _]%Hr'. apply (Hinv1 v Hv), elem_of_sinks_of.
           by exists u.
    + assert (Hflat : flatten (r :: gens') = elements r ++ flatten gens')
        by done.
      rewrite Hflat. split; [|split; [|split]].
      * apply NoDup_app. split; [apply NoDup_elements|]. split; [|done].
        intros v Hv%elem_of_elements Hv'. apply (Hfresh v Hv').
        by apply elem_of_union_r.
      * intros v [Hv%elem_of_elements|Hv]%elem_of_app HvY.
        -- by destruct (HY v HvY) as (_ & _ & ?).
        -- apply (Hfresh v Hv). by apply elem_of_union_l.
      * intros [|i] [|j] ga gb a b Hi Hj Ha Hb Hab; cbn in Hi, Hj.
        -- injection Hi as <-. injection Hj as <-. exfalso.
           destruct (decide ((a, b) ∈ G)) as [HabG|HabG].
           ++ apply (Hinv1 b Hb), elem_of_sinks_of. by exists a.
           ++ by destruct (HY a (Hgone a b Hab HabG)) as (_ & _ & ?).
        -- lia.
        -- injection Hj as <-. exfalso.
           assert (Hain : a ∈ flatten gens').
           { apply elem_of_flatten. by exists i, ga. }
           destruct (decide ((a, b) ∈ G)) as [HabG|HabG].
           ++ apply (Hinv1 b Hb), elem_of_sinks_of. by exists a.
           ++ apply (Hfresh a Hain), elem_of_union_l. by apply (Hgone a b).
        -- assert (i < j); [|lia]. by eapply Hord.
      * intros res ->. destruct (Hres res eq_refl) as (Hr1 & Hr2 & Hr3 & Hr4).
        split; [by etrans|]. split; [done|]. split; [done|].
        intros v [Hv|[Hv%elem_of_elements|Hv]%elem_of_app].
        -- apply Hr4. left. by apply elem_of_union_l.
        -- apply Hr4. left. by apply elem_of_union_r.
        -- apply Hr4. by right.
Qed.

Lemma forward_sort_invariant E gens e :
  forward_sort E = (gens, e) →
  NoDup (flatten gens) ∧
  (∀ i j ga gb a b,
     gens !! i = Some ga → gens !! j = Some gb →
     a ∈ ga → b ∈ gb → (a, b) ∈ E → i < j) ∧
  (∀ res, e = CycleError res →
     res ⊆ E ∧ res ≠ ∅ ∧ sources_of res ⊆ sinks_of res ∧
     ∀ v, v ∈ flatten gens → (v ∉ sources_of res) ∧ (v ∉ sinks_of res)).
Proof.
  rewrite forward_sort_peel_loop. intros Hloop.
  destruct (initial_no_incoming_inv E) as [Hinv1 Hinv2].
  destruct (peel_loop_invariant E (S (size E + 2)) E (initial_no_incoming E)
              ∅ gens e)
    as (Hnodup & _ & Hord & Hres); [done|done|done| | |done|].
  - intros a b Hab Hnab. done.
  - by intros v ?%not_elem_of_empty.
  - split; [done|]. split; [done|]. intros res Hres'.
    destruct (Hres res Hres') as (? & ? & ? & Hr4).
    split; [done|]. split; [done|]. split; [done|].
    intros v Hv. apply Hr4. by right.
Qed.

Lemma tc_inverse G x y :
  tc (edge_rel (inverse G)) x y ↔ tc (edge_rel G) y x.
Proof.
  split.
  - induction 1 as [x y Hxy|x y z Hxy _ IH].
    + apply tc_once. by apply elem_of_inverse.
    + eapply tc_r; [done|]. by apply elem_of_inverse.
  - induction 1 as [y x Hyx|y z x Hyz _ IH].
    + apply tc_once. by apply elem_of_inverse.
    + eapply tc_r; [done|]. by apply elem_of_inverse.
Qed.

Lemma acyclic_inverse G : acyclic (inverse G) ↔ acyclic G.
Proof.
  unfold acyclic. split; intros Hacyc x Hx; apply (Hacyc x); by apply tc_inverse.
Qed.

Lemma forward_sort_end_acyclic G :
  (forward_sort G).2 = Completed ↔ acyclic G.
Proof.
  split.
  - intros Hend x Hx. destruct (tc_cycle_edge G x Hx) as [e0 He0].
    destruct (initial_no_incoming_inv G) as [Hinv1 _].
    destruct (peel_loop_cyclic G (S (size G + 2)) G (initial_no_incoming G))
      as (gens & residual & Hloop & _);
      [done|by intros e [? _]|by exists e0| |].
    { case_decide; lia. }
    rewrite forward_sort_peel_loop, Hloop in Hend. done.
  - intros Hacyc. destruct (initial_no_incoming_inv G) as [Hinv1 Hinv2].
    destruct (peel_loop_acyclic (S (size G + 2)) G (initial_no_incoming G))
      as (gens & Hloop & _); [done..| |].
    { case_decide; lia. }
    by rewrite forward_sort_peel_loop, Hloop.
Qed.

(** The sort in either direction completes exactly on the acyclic edge
    sets and raises [CycleError] exactly on the others; it never needs
    more calls of [next] than the edges it holds, plus three. *)
Theorem sort_completes_iff_acyclic G :
  ((forward_sort G).2 = Completed ↔ acyclic G) ∧
  ((∃ res, (forward_sort G).2 = CycleError res) ↔ ¬ acyclic G) ∧
  ((reverse_sort G).2 = Completed ↔ acyclic G) ∧
  ((∃ res, (reverse_sort G).2 = CycleError res) ↔ ¬ acyclic G).
Proof.
  assert (Hfwd : ∀ G' : gset (K * K),
    (∃ res, (forward_sort G').2 = CycleError res) ↔ ¬ acyclic G').
  { intros G'. rewrite <- forward_sort_end_acyclic.
    pose proof (forward_sort_terminates G') as Hterm.
    destruct ((forward_sort G').2) as [|res|]; [| |done].
    - split; [by intros [res ?]|by intros []].
    - split; [done|]. intros _. by exists res. }
  assert (Hrev_end : (reverse_sort G).2
                     = sort_end_inverse (forward_sort (inverse G)).2)
    by by rewrite reverse_sort_forward_sort.
  split; [apply forward_sort_end_acyclic|]. split; [apply Hfwd|].
  rewrite Hrev_end, <- (acyclic_inverse G). split.
  - rewrite <- forward_sort_end_acyclic.
    by destruct ((forward_sort (inverse G)).2).
  - rewrite <- Hfwd. destruct ((forward_sort (inverse G)).2) as [|res|]; cbn.
    + split; by intros [? ?].
    + split; intros _; by eexists.
    + split; by intros [? ?].
Qed.

(** Whatever the edge set, cyclic or not, no node is yielded twice and
    every edge between yielded nodes leads from an earlier generation to
    a strictly later one; in particular no edge joins two nodes of one
    generation. *)
Theorem forward_generations_ordered E gens e :
  forward_sort E = (gens, e) →
  NoDup (flatten gens) ∧
  ∀ i j ga gb a b,
    gens !! i = Some ga → gens !! j = Some gb →
    a ∈ ga → b ∈ gb → (a, b) ∈ E → i < j.
Proof.
  intros Hsort. destruct (forward_sort_invariant E gens e Hsort) as (? & ? & _).
  done.
Qed.

(** The edges that [CycleError] carries: a non-empty part of the edge
    set in which every source is also a sink, that touches no node
    yielded before, and on which a new forward sort raises at once,
    before any generation. *)
Theorem forward_residual_stuck E gens res :
  forward_sort E = (gens, CycleError res) →
  res ⊆ E ∧ res ≠ ∅ ∧ sources_of res ⊆ sinks_of res ∧
  (∀ v, v ∈ flatten gens → (v ∉ sources_of res) ∧ (v ∉ sinks_of res)) ∧
  forward_sort res = ([], CycleError res).
Proof.
  intros Hsort.
  destruct (forward_sort_invariant E gens _ Hsort) as (_ & _ & Hres).
  destruct (Hres res eq_refl) as (Hsub & Hne & Hss & Htouch).
  split; [done|]. split; [done|]. split; [done|]. split; [done|].
  rewrite forward_sort_peel_loop.
  assert (initial_no_incoming res = ∅) as ->.
  { apply set_eq. intros u. rewrite elem_of_initial_no_incoming.
    split; [|by intros ?%not_elem_of_empty]. intros [Hu Hnu].
    destruct Hnu. by apply Hss. }
  cbn [peel_loop]. rewrite decide_True by done. by rewrite decide_False.
Qed.

(** [reversed(sorter)] yields what [iter(sorter)] yields on the edge set
    with every edge turned round, and ends alike: completed, or
    [CycleError] with the residue turned back. *)
Theorem reversed_is_iter_of_inverse G :
  reverse_sort G
  = ((forward_sort (inverse G)).1,
     sort_end_inverse (forward_sort (inverse G)).2).
Proof.
  rewrite forward_sort_peel_loop.
  unfold reverse_sort, enough_fuel, reversed_next.
  replace (size G + 3) with (S (size G + 2)) by lia.
  rewrite exhaust_NotStarted, peel_loop_reverse, initial_no_outgoing_inverse.
  assert (size (inverse G) = size G) as ->; [|done].
  unfold inverse, set_map. rewrite size_list_to_set.
  - by rewrite length_fmap.
  - apply NoDup_fmap_2; [|apply NoDup_elements].
    intros [a b] [c d] [= -> ->]. done.
Qed.

(** The reverse sort of an acyclic edge set completes; its generations
    hold every node exactly once, and the generation of the sink of an
    edge comes strictly before the generation of its source. *)
Theorem reverse_sort_acyclic E :
  acyclic E →
  ∃ gens,
    reverse_sort E = (gens, Completed) ∧
    NoDup (flatten gens) ∧
    (∀ v, v ∈ flatten gens ↔ v ∈ sources_of E ∪ sinks_of E) ∧
    (∀ a b, (a, b) ∈ E →
       ∃ i j ga gb, gens !! i = Some ga ∧ gens !! j = Some gb ∧
                    a ∈ ga ∧ b ∈ gb ∧ j < i).
Proof.
  intros Hacyc%acyclic_inverse.
  destruct (initial_no_incoming_inv (inverse E)) as [Hinv1 Hinv2].
  destruct (peel_loop_acyclic (S (size (inverse E) + 2)) (inverse E)
              (initial_no_incoming (inverse E)))
    as (gens & Hloop & Hnodup & Hmem & Hord); [done..| |].
  { case_decide; lia. }
  exists gens. rewrite reverse_sort_forward_sort, forward_sort_peel_loop, Hloop.
  split; [done|]. split; [done|]. split.
  - intros v. rewrite Hmem, elem_of_union, elem_of_initial_no_incoming,
      sources_of_inverse, sinks_of_inverse.
    destruct (decide (v ∈ sources_of E)); tauto.
  - intros a b Hab.
    destruct (Hord b a) as (j & i & gb & ga & Hj & Hi & Hb & Ha & Hlt).
    { by apply elem_of_inverse. }
    by exists i, j, ga, gb.
Qed.

End generations.


Lemma forward_generations_ordered_witness :
  NoDup (flatten doc_cyclic_generations) ∧
  ∀ i j ga gb a b,
    doc_cyclic_generations !! i = Some ga → doc_cyclic_generations !! j = Some gb →
    a ∈ ga → b ∈ gb → (a, b) ∈ DAG_add doc_graph ("d", "c") → i < j.
Proof.
  apply (forward_generations_ordered (DAG_add doc_graph ("d", "c"))
           doc_cyclic_generations (CycleError doc_residual)).
  vm_compute. reflexivity.
Defined.

Lemma forward_residual_stuck_witness :
  doc_residual ⊆ DAG_add doc_graph ("d", "c") ∧ doc_residual ≠ ∅ ∧
  sources_of doc_residual ⊆ sinks_of doc_residual ∧
  (∀ v, v ∈ flatten doc_cyclic_generations →
        (v ∉ sources_of doc_residual) ∧ (v ∉ sinks_of doc_residual)) ∧
  forward_sort doc_residual = ([], CycleError doc_residual).
Proof.
  apply (forward_residual_stuck (DAG_add doc_graph ("d", "c"))
           doc_cyclic_generations doc_residual).
  vm_compute. reflexivity.
Defined.

Lemma reverse_sort_acyclic_witness :
  ∃ gens,
    reverse_sort doc_graph = (gens, Completed) ∧
    NoDup (flatten gens) ∧
    (∀ v, v ∈ flatten gens ↔ v ∈ sources_of doc_graph ∪ sinks_of doc_graph) ∧
    (∀ a b, (a, b) ∈ doc_graph →
       ∃ i j ga gb, gens !! i = Some ga ∧ gens !! j = Some gb ∧
                    a ∈ ga ∧ b ∈ gb ∧ j < i).
Proof.
  apply (reverse_sort_acyclic doc_graph).
  apply (acyclic_ranked doc_graph doc_rank).
  apply (bool_decide_unpack _). vm_compute. exact I.
Defined.

(** ** Sorting part of a graph *)

Section partial.
Context `{Countable K}.
Implicit Types (G E : gset (K * K)) (start endpoints : list K).

Lemma init_start_only E start :
  start ≠ [] →
  ∃ F, TopologicalSorter_init E start [] = Some F ∧
       ∀ a b, (a, b) ∈ F ↔
              (a, b) ∈ E ∧ ∃ s, s ∈ start ∧ rtc (edge_rel E) s a.
Proof.
  intros Hne. destruct (start_filter_spec E start Hne) as (F & HF & Hmem).
  exists F. unfold TopologicalSorter_init. rewrite HF. cbn.
  unfold endpoint_filter. rewrite decide_True by done. split; [done|].
  intros a b. rewrite Hmem. unfold reach. cbn.
  by setoid_rewrite elem_of_list_to_set.
Qed.

Lemma init_endpoints_only E endpoints :
  endpoints ≠ [] →
  ∃ F, TopologicalSorter_init E [] endpoints = Some F ∧
       ∀ a b, (a, b) ∈ F ↔
              (a, b) ∈ E ∧ ∃ t, t ∈ endpoints ∧ rtc (edge_rel E) b t.
Proof.
  intros Hne. destruct (endpoint_filter_spec E endpoints Hne) as (F & HF & Hmem).
  exists F. unfold TopologicalSorter_init, start_filter.
  rewrite decide_True by done. cbn. rewrite HF. split; [done|].
  intros a b. rewrite Hmem. unfold reach. cbn.
  split; intros [Hab (t & Ht & Hbt)]; (split; [done|]); exists t.
  - split; [by apply elem_of_list_to_set in Ht|by apply rtc_flip_iff].
  - split; [by apply elem_of_list_to_set|by apply rtc_flip_iff].
Qed.

(** With starts only, the sorter keeps the edges whose source a start
    reaches; with endpoints only, the edges whose sink reaches an
    endpoint; with neither, every edge. *)
Theorem one_sided_filters E start endpoints :
  start ≠ [] → endpoints ≠ [] →
  (∃ F, TopologicalSorter_init E start [] = Some F ∧
        ∀ a b, (a, b) ∈ F ↔
               (a, b) ∈ E ∧ ∃ s, s ∈ start ∧ rtc (edge_rel E) s a) ∧
  (∃ F, TopologicalSorter_init E [] endpoints = Some F ∧
        ∀ a b, (a, b) ∈ F ↔
               (a, b) ∈ E ∧ ∃ t, t ∈ endpoints ∧ rtc (edge_rel E) b t) ∧
  TopologicalSorter_init E [] [] = Some E.
Proof.
  intros Hs Ht. split; [by apply init_start_only|].
  split; [by apply init_endpoints_only|done].
Qed.

Lemma forward_sort_empty : forward_sort (K:=K) ∅ = ([], Completed).
Proof.
  rewrite forward_sort_peel_loop, initial_no_incoming_empty.
  apply peel_loop_empty.
Qed.

(** Start nodes that are the source of no edge select nothing: the sort
    yields no generation and raises nothing, whatever the endpoints. *)
Theorem starts_without_edges_yield_nothing E start endpoints :
  start ≠ [] →
  (∀ s, s ∈ start → s ∉ sources_of E) →
  TopologicalSorter_init E start endpoints = Some ∅ ∧
  forward_sort (K:=K) ∅ = ([], Completed).
Proof.
  intros Hne Hnosrc. split; [|apply forward_sort_empty].
  destruct (start_filter_spec E start Hne) as (F & HF & Hmem).
  assert (F = ∅) as ->.
  { apply set_eq. intros [a b]. split; [|by intros ?%not_elem_of_empty].
    intros [Hab (s & Hs%elem_of_list_to_set & Hsa)]%Hmem. cbn in Hsa.
    destruct (Hnosrc s Hs). apply elem_of_sources_of.
    destruct (rtc_inv _ _ Hsa) as [->|(y & Hsy & _)]; [by exists b|by exists y]. }
  unfold TopologicalSorter_init. rewrite HF. cbn.
  destruct (decide (endpoints = [])) as [->|Hne']; [done|].
  destruct (endpoint_filter_spec ∅ endpoints Hne') as (F' & -> & Hmem').
  f_equal. apply set_eq. intros e. rewrite Hmem'.
  split; [by intros [? _]|by intros ?%not_elem_of_empty].
Qed.

(** On an acyclic graph the sort from given starts completes and yields,
    each once, exactly the nodes that bear a kept edge: the sources that
    a start reaches and the sinks of their edges, sources before sinks. *)
Theorem forward_sort_from_starts E start :
  acyclic E → start ≠ [] →
  ∃ F gens,
    TopologicalSorter_init E start [] = Some F ∧
    forward_sort F = (gens, Completed) ∧
    NoDup (flatten gens) ∧
    (∀ v, v ∈ flatten gens ↔
          ∃ s u, s ∈ start ∧ rtc (edge_rel E) s u ∧
                 ((u = v ∧ v ∈ sources_of E) ∨ (u, v) ∈ E)) ∧
    (∀ v, v ∈ flatten gens → ∃ s, s ∈ start ∧ rtc (edge_rel E) s v) ∧
    (∀ a b, (a, b) ∈ F →
       ∃ i j ga gb, gens !! i = Some ga ∧ gens !! j = Some gb ∧
                    a ∈ ga ∧ b ∈ gb ∧ i < j).
Proof.
  intros Hacyc Hne. destruct (init_start_only E start Hne) as (F & HF & Hmem).
  assert (Hsub : F ⊆ E) by (intros [a b] Hab; by apply Hmem).
  destruct (initial_no_incoming_inv F) as [Hinv1 Hinv2].
  destruct (peel_loop_acyclic (S (size F + 2)) F (initial_no_incoming F))
    as (gens & Hloop & Hnodup & Hgens & Hord);
    [by eapply acyclic_subseteq|done|done| |].
  { case_decide; lia. }
  assert (Hnodes : ∀ v, v ∈ flatten gens ↔
            ∃ s u, s ∈ start ∧ rtc (edge_rel E) s u ∧
                   ((u = v ∧ v ∈ sources_of E) ∨ (u, v) ∈ E)).
  { intros v. rewrite Hgens, elem_of_initial_no_incoming. split.
    - intros [[(w & [Hvw (s & Hs & Hsv)]%Hmem)%elem_of_sources_of _]
             |(u & [Huv (s & Hs & Hsu)]%Hmem)%elem_of_sinks_of].
      + exists s, v. split; [done|]. split; [done|]. left. split; [done|].
        apply elem_of_sources_of. by exists w.
      + exists s, u. split; [done|]. split; [done|]. by right.
    - intros (s & u & Hs & Hsu & [[-> (w & Hw)%elem_of_sources_of]|Huv]).
      + destruct (decide (v ∈ sinks_of F)) as [|Hnv]; [by right|]. left.
        split; [|done]. apply elem_of_sources_of. exists w. apply Hmem.
        split; [done|]. by exists s.
      + right. apply elem_of_sinks_of. exists u. apply Hmem.
        split; [done|]. by exists s. }
  exists F, gens. rewrite forward_sort_peel_loop.
  split; [done|]. split; [done|]. split; [done|]. split; [done|].
  split; [|done].
  intros v (s & u & Hs & Hsu & [[-> _]|Huv])%Hnodes; exists s.
  - done.
  - split; [done|]. by eapply rtc_r.
Qed.

End partial.

Lemma one_sided_filters_witness :
  (∃ F, TopologicalSorter_init doc_graph ["c"] [] = Some F ∧
        ∀ a b, (a, b) ∈ F ↔
               (a, b) ∈ doc_graph ∧
               ∃ s, s ∈ ["c"] ∧ rtc (edge_rel doc_graph) s a) ∧
  (∃ F, TopologicalSorter_init doc_graph [] ["b"] = Some F ∧
        ∀ a b, (a, b) ∈ F ↔
               (a, b) ∈ doc_graph ∧
               ∃ t, t ∈ ["b"] ∧ rtc (edge_rel doc_graph) b t) ∧
  TopologicalSorter_init doc_graph [] [] = Some doc_graph.
Proof. apply (one_sided_filters doc_graph ["c"] ["b"]); discriminate. Defined.

Lemma starts_without_edges_yield_nothing_witness :
  TopologicalSorter_init doc_graph ["d"] ["a"] = Some ∅ ∧
  forward_sort (K:=string) ∅ = ([], Completed).
Proof.
  apply (starts_without_edges_yield_nothing doc_graph ["d"] ["a"]).
  - discriminate.
  - intros s ->%list_elem_of_singleton. vm_compute. discriminate.
Defined.

Lemma forward_sort_from_starts_witness :
  ∃ F gens,
    TopologicalSorter_init doc_graph ["c"] [] = Some F ∧
    forward_sort F = (gens, Completed) ∧
    NoDup (flatten gens) ∧
    (∀ v, v ∈ flatten gens ↔
          ∃ s u, s ∈ ["c"] ∧ rtc (edge_rel doc_graph) s u ∧
                 ((u = v ∧ v ∈ sources_of doc_graph) ∨ (u, v) ∈ doc_graph)) ∧
    (∀ v, v ∈ flatten gens → ∃ s, s ∈ ["c"] ∧ rtc (edge_rel doc_graph) s v) ∧
    (∀ a b, (a, b) ∈ F →
       ∃ i j ga gb, gens !! i = Some ga ∧ gens !! j = Some gb ∧
                    a ∈ ga ∧ b ∈ gb ∧ i < j).
Proof.
  apply (forward_sort_from_starts doc_graph ["c"]).
  - apply (acyclic_ranked doc_graph doc_rank).
    apply (bool_decide_unpack _). vm_compute. exact I.
  - discriminate.
Defined.

(** ** The loop of the cycle report *)

Section walk_loop.
Context `{Countable K} `{!NodeOrder K}.
Implicit Types (members : list (K * K)) (sinks : gmap K K).

Lemma walk_mono sinks first fuel :
  ∀ fuel' node r,
    walk fuel sinks first node = Some r → (fuel ≤ fuel') →
    walk fuel' sinks first node = Some r.
Proof.
  induction fuel as [|fuel IH]; intros fuel' node r Hwalk Hle; [done|].
  destruct fuel' as [|fuel']; [lia|].
  rewrite walk_step in Hwalk. rewrite walk_step.
  destruct (decide (node = first)); [done|].
  destruct (sinks !! node) as [node'|]; [|done].
  destruct (walk fuel sinks first node') as [r'|] eqn:Hrec; [|done].
  rewrite (IH fuel' node' r' Hrec) by lia. done.
Qed.

(** A walk that ends has seen [size V] nodes, all different, before it
    ended, and ends with that much fuel and one more. *)
Lemma walk_trace sinks first fuel :
  ∀ node r,
    walk fuel sinks first node = Some r →
    ∃ V : gset K,
      V ⊆ dom sinks ∧ (first ∉ V) ∧
      walk (size V) sinks first node = None ∧
      walk (S (size V)) sinks first node = Some r ∧
      (∀ v, v ∈ V → is_Some (walk (S (size V)) sinks first v)) ∧
      (∀ l, r = Return l → NoDup l ∧ ∀ v, v ∈ l ↔ v ∈ V) ∧
      (∀ e, r = Raise e →
         e = KeyError ∧
         ∃ b, b ≠ first ∧ sinks !! b = None ∧
              (b = node ∨ ∃ a, sinks !! a = Some b)).
Proof.
  induction fuel as [|fuel IH]; intros node r Hwalk; [done|].
  rewrite walk_step in Hwalk.
  destruct (decide (node = first)) as [->|Hne].
  { injection Hwalk as <-. exists ∅. rewrite size_empty, walk_step.
    rewrite decide_True by done. split; [apply empty_subseteq|].
    split; [apply not_elem_of_empty|].
    split; [done|]. split; [done|].
    split; [by intros v ?%not_elem_of_empty|]. split.
    - intros l [= <-]. split; [constructor|]. intros v.
      rewrite elem_of_nil. split; [done|by intros ?%not_elem_of_empty].
    - intros e [=]. }
  destruct (sinks !! node) as [node'|] eqn:Hnode.
  2:{ injection Hwalk as <-. exists ∅. rewrite size_empty, walk_step.
      rewrite decide_False, Hnode by done.
      split; [apply empty_subseteq|]. split; [apply not_elem_of_empty|].
      split; [done|]. split; [done|].
      split; [by intros v ?%not_elem_of_empty|]. split.
      - intros l [=].
      - intros e [= <-]. split; [done|]. exists node. by auto. }
  destruct (walk fuel sinks first node') as [r'|] eqn:Hrec; [|done].
  injection Hwalk as <-.
  destruct (IH node' r' Hrec) as (V & Hdom & Hfirst & Hmin & Hend & HV & Hl & He).
  assert (Hstep : ∀ n, walk (S n) sinks first node
                       = result_map (cons node) <$> walk n sinks first node').
  { intros n. by rewrite walk_step, decide_False, Hnode by done. }
  assert (HnV : node ∉ V).
  { intros [rv Hrv]%HV. rewrite Hstep, Hmin in Hrv. done. }
  exists ({[ node ]} ∪ V).
  rewrite size_union, size_singleton by (by apply disjoint_singleton_l).
  cbn [Nat.add].
  split. { apply union_subseteq. split; [|done].
           apply singleton_subseteq_l, elem_of_dom. by eexists. }
  split. { intros [->%elem_of_singleton|?]%elem_of_union; done. }
  split. { by rewrite Hstep, Hmin. }
  split. { by rewrite Hstep, Hend. }
  split. { intros v [->%elem_of_singleton|Hv]%elem_of_union.
           - rewrite Hstep, Hend. by eexists.
           - destruct (HV v Hv) as [rv Hrv]. exists rv.
             apply (walk_mono _ _ _ _ _ _ Hrv). lia. }
  split.
  - intros l Hr. destruct r' as [l'|e']; [|done]. injection Hr as <-.
    destruct (Hl l' eq_refl) as [Hnd Hmem]. split.
    + constructor; [|done]. by rewrite Hmem.
    + intros v. rewrite elem_of_cons, Hmem, elem_of_union, elem_of_singleton.
      done.
  - intros e Hr. destruct r' as [l'|e']; [done|]. injection Hr as <-.
    destruct (He e' eq_refl) as [-> (b & Hb & Hnone & Hfrom)].
    split; [done|]. exists b. split; [done|]. split; [done|]. right.
    destruct Hfrom as [->|Hfrom]; [by exists node|done].
Qed.

Lemma dom_dict (l : list (K * K)) : dom (dict l) = list_to_set l.*1.
Proof.
  induction l as [|[k v] l IH] using rev_ind;
    [unfold dict; cbn; by rewrite dom_empty_L|].
  rewrite dict_snoc, dom_insert_L, IH, fmap_app, list_to_set_app_L. cbn.
  apply set_eq. intros x. rewrite !elem_of_union, elem_of_singleton,
    elem_of_empty. tauto.
Qed.

Lemma dom_CycleError_sinks members :
  dom (CycleError_sinks members) = list_to_set members.*1.
Proof.
  unfold CycleError_sinks, sorted. rewrite dom_dict.
  apply list_to_set_perm_L. by rewrite merge_sort_Permutation.
Qed.

Lemma size_sources_le members :
  size (list_to_set members.*1 : gset K) ≤ length members.
Proof.
  rewrite <- (length_fmap fst members). unfold size, set_size. cbn.
  apply submseteq_length, NoDup_submseteq; [apply NoDup_elements|].
  intros x Hx%elem_of_elements. by apply elem_of_list_to_set in Hx.
Qed.

(** The walk of the report, when it ends at all, ends after fewer steps
    than there are sources. *)
Lemma CycleError_cycle_enough members fuel r :
  CycleError_cycle fuel members = Some r →
  ∀ fuel', length members ≤ fuel' → CycleError_cycle fuel' members = Some r.
Proof.
  unfold CycleError_cycle. intros Hcycle fuel' Hfuel.
  destruct (CycleError_first members) as [first|] eqn:Hfirst; [|done].
  destruct (CycleError_sinks members !! first) as [node|] eqn:Hnode; [|done].
  destruct (walk fuel _ first node) as [r'|] eqn:Hwalk; [|done].
  destruct (walk_trace _ _ _ _ _ Hwalk) as (V & Hdom & HfV & _ & Hend & _).
  rewrite (walk_mono _ _ _ fuel' _ _ Hend); [done|].
  assert (size ({[ first ]} ∪ V) ≤ size (dom (CycleError_sinks members))).
  { apply subseteq_size, union_subseteq. split; [|done].
    apply singleton_subseteq_l, elem_of_dom. by eexists. }
  rewrite size_union, size_singleton in * by (by apply disjoint_singleton_l).
  rewrite dom_CycleError_sinks in *.
  pose proof (size_sources_le members). cbn in *. lia.
Qed.

(** [str()] of a [CycleError] either returns, or raises, within as many
    rounds of its loop as there are members, or its loop never ends. *)
Theorem CycleError_cycle_bounded members :
  (∃ r, ∀ fuel, length members ≤ fuel →
        CycleError_cycle fuel members = Some r) ∨
  (∀ fuel, CycleError_cycle fuel members = None).
Proof.
  destruct (CycleError_cycle (length members) members) as [r|] eqn:Hlen.
  - left. exists r. by apply CycleError_cycle_enough with (length members).
  - right. intros fuel.
    destruct (CycleError_cycle fuel members) as [r|] eqn:Hfuel; [|done].
    by rewrite (CycleError_cycle_enough _ _ _ Hfuel (length members)) in Hlen.
Qed.

(** The sequence that the report lists holds no node twice; it starts
    with the least source, every node of it is the source of a member,
    and it is no longer than the members are many. *)
Theorem CycleError_cycle_simple members fuel c :
  CycleError_cycle fuel members = Some (Return c) →
  NoDup c ∧ head c = CycleError_first members ∧
  (∀ v, v ∈ c → v ∈ members.*1) ∧ length c ≤ length members.
Proof.
  unfold CycleError_cycle.
  destruct (CycleError_first members) as [first|] eqn:Hfirst; [|done].
  destruct (CycleError_sinks members !! first) as [node|] eqn:Hnode; [|done].
  destruct (walk fuel _ first node) as [[l|e]|] eqn:Hwalk; [|done..].
  intros [= <-].
  destruct (walk_trace _ _ _ _ _ Hwalk) as (V & Hdom & HfV & _ & _ & _ & Hl & _).
  destruct (Hl l eq_refl) as [Hnd Hmem].
  assert (Hsrc : ∀ v, v ∈ first :: l → v ∈ dom (CycleError_sinks members)).
  { intros v [->|Hv%Hmem%Hdom]%elem_of_cons; [|done].
    apply elem_of_dom. by eexists. }
  split. { constructor; [by rewrite Hmem|done]. }
  split; [done|]. split.
  - intros v Hv%Hsrc. rewrite dom_CycleError_sinks in Hv.
    by apply elem_of_list_to_set in Hv.
  - etrans; [|apply (size_sources_le members)].
    rewrite <- dom_CycleError_sinks. unfold size at 1, set_size. cbn.
    change (S (length l)) with (length (first :: l)).
    apply submseteq_length, NoDup_submseteq.
    + constructor; [by rewrite Hmem|done].
    + intros v Hv%Hsrc. by apply elem_of_elements.
Qed.

Lemma CycleError_cycle_raise_inv members fuel e :
  CycleError_cycle fuel members = Some (Raise e) →
  (e = IndexError ∧ members = []) ∨
  (e = KeyError ∧ members ≠ [] ∧
   ∃ a b, (a, b) ∈ members ∧ b ∉ members.*1).
Proof.
  unfold CycleError_cycle.
  destruct (CycleError_first members) as [first|] eqn:Hfirst.
  2:{ intros [= <-]. left. split; [done|].
      destruct members as [|m members]; [done|].
      destruct (CycleError_first_nonempty (m :: members)) as [? Hsome];
        [done|]. by rewrite Hsome in Hfirst. }
  assert (Hne : members ≠ []).
  { intros ->. by apply CycleError_first_least in Hfirst
      as [?%elem_of_nil _]. }
  destruct (CycleError_sinks members !! first) as [node|] eqn:Hnode.
  2:{ apply CycleError_first_least in Hfirst as [Hin _].
      apply not_elem_of_dom in Hnode.
      rewrite dom_CycleError_sinks, elem_of_list_to_set in Hnode. done. }
  destruct (walk fuel _ first node) as [[l|e']|] eqn:Hwalk; [done| |done].
  intros [= <-].
  destruct (walk_trace _ _ _ _ _ Hwalk) as (_ & _ & _ & _ & _ & _ & _ & He).
  destruct (He e' eq_refl) as [-> (b & Hb & Hnone & Hfrom)].
  right. split; [done|]. split; [done|].
  assert (∃ a, CycleError_sinks members !! a = Some b) as [a Ha].
  { destruct Hfrom as [->|?]; [by exists first|done]. }
  exists a, b. split; [by apply CycleError_sinks_greatest in Ha as [? _]|].
  apply not_elem_of_dom in Hnone.
  by rewrite dom_CycleError_sinks, elem_of_list_to_set in Hnone.
Qed.

(** Which exceptions [str()] of a [CycleError] raises: [IndexError]
    exactly when there are no members, [KeyError] only when a member
    ends in a node that no member starts from, and no other. *)
Theorem CycleError_cycle_exceptions members fuel :
  (CycleError_cycle fuel members = Some (Raise IndexError) ↔ members = []) ∧
  (CycleError_cycle fuel members = Some (Raise KeyError) →
   ∃ a b, (a, b) ∈ members ∧ b ∉ members.*1) ∧
  (∀ msg, CycleError_cycle fuel members ≠ Some (Raise (OperationalError msg))).
Proof.
  split; [split|split].
  - by intros [[_ ?]|[[=] _]]%CycleError_cycle_raise_inv.
  - by intros ->.
  - by intros [[[=] _]|(_ & _ & ?)]%CycleError_cycle_raise_inv.
  - by intros msg [[[=] _]|[[=] _]]%CycleError_cycle_raise_inv.
Qed.

(** The report of a [CycleError] that the reverse sort raises never
    raises itself: every node its walk comes to has an outgoing edge
    among the members. *)
Theorem reverse_report_never_raises (E : gset (K * K)) gens res :
  reverse_sort E = (gens, CycleError res) →
  ∀ fuel members e,
    members ≡ₚ elements res →
    CycleError_cycle fuel members ≠ Some (Raise e).
Proof.
  rewrite reverse_sort_forward_sort. intros Hsort fuel members e Hperm Hraise.
  destruct (forward_sort (inverse E)) as [gens' e'] eqn:Hfwd.
  cbn in Hsort. injection Hsort as -> Hend.
  destruct e' as [|res'|]; [done| |done]. injection Hend as <-.
  destruct (forward_sort_invariant _ _ _ Hfwd) as (_ & _ & Hres).
  destruct (Hres res' eq_refl) as (_ & Hne & Hss & _).
  assert (Hmem : ∀ a b, (a, b) ∈ members ↔ (b, a) ∈ res').
  { intros a b. by rewrite Hperm, elem_of_elements, elem_of_inverse. }
  destruct (CycleError_cycle_raise_inv _ _ _ Hraise)
    as [[_ ->]|(_ & _ & a & b & Hab & Hb)].
  - apply Permutation_nil_l in Hperm. symmetry in Hperm.
    apply elements_empty_inv in Hperm.
    apply Hne, inverse_empty_iff. by apply leibniz_equiv.
  - destruct Hb. apply Hmem in Hab.
    assert (b ∈ sinks_of res') as (c & Hc)%elem_of_sinks_of.
    { apply Hss, elem_of_sources_of. by exists a. }
    apply list_elem_of_fmap. exists (b, c). split; [done|]. by apply Hmem.
Qed.

Lemma forward_sort_stuck (G : gset (K * K)) :
  G ≠ ∅ → sources_of G ⊆ sinks_of G →
  forward_sort G = ([], CycleError G).
Proof.
  intros Hne Hss. rewrite forward_sort_peel_loop.
  assert (initial_no_incoming G = ∅) as ->.
  { apply set_eq. intros u. rewrite elem_of_initial_no_incoming.
    split; [|by intros ?%not_elem_of_empty]. intros [Hu Hnu].
    destruct Hnu. by apply Hss. }
  cbn [peel_loop]. rewrite decide_True by done. by rewrite decide_False.
Qed.

(** The report of a [CycleError] that the forward sort raises can raise
    [KeyError]: an edge that leaves a cycle stays among the members, and
    the walk follows it to a node that no member starts from. *)
Theorem forward_report_key_error (a b c : K) :
  a ≠ b → c ≠ a → c ≠ b → node_le a b → node_le a c →
  forward_sort ({[ (a, b); (b, a); (b, c) ]} : gset (K * K))
  = ([], CycleError {[ (a, b); (b, a); (b, c) ]}) ∧
  ∀ fuel, 2 ≤ fuel →
    CycleError_cycle fuel
      (elements ({[ (a, b); (b, a); (b, c) ]} : gset (K * K)))
    = Some (Raise KeyError).
Proof.
  intros Hab Hca Hcb Hle_ab Hle_ac.
  set (E := ({[ (a, b); (b, a); (b, c) ]} : gset (K * K))).
  assert (HE : ∀ x y, (x, y) ∈ elements E ↔
            (x = a ∧ y = b) ∨ (x = b ∧ y = a) ∨ (x = b ∧ y = c)).
  { intros x y. unfold E.
    rewrite elem_of_elements, !elem_of_union, !elem_of_singleton.
    split.
    - intros [[[= -> ->]|[= -> ->]]|[= -> ->]]; auto.
    - intros [[-> ->]|[[-> ->]|[-> ->]]]; auto. }
  assert (Hsrc : ∀ x, x ∈ (elements E).*1 ↔ x = a ∨ x = b).
  { intros x. rewrite list_elem_of_fmap. split.
    - intros ([x' y] & -> & Hxy%HE). cbn. tauto.
    - intros [->| ->]; [exists (a, b)|exists (b, a)];
        (split; [done|apply HE; auto]). }
  split.
  - apply forward_sort_stuck.
    + intros Hempty. assert (Hin : (a, b) ∈ elements E) by (apply HE; auto).
      rewrite Hempty, elements_empty in Hin. by apply elem_of_nil in Hin.
    + intros x (y & Hxy)%elem_of_sources_of. apply elem_of_sinks_of.
      apply elem_of_elements, HE in Hxy as [[-> ->]|[[-> ->]|[-> ->]]].
      * exists b. apply elem_of_elements, HE. auto.
      * exists a. apply elem_of_elements, HE. auto.
      * exists a. apply elem_of_elements, HE. auto.
  - intros fuel Hfuel. destruct fuel as [|[|fuel]]; [lia..|].
    unfold CycleError_cycle.
    destruct (CycleError_first_nonempty (elements E)) as [first Hfirst].
    { intros Hnil. assert (Hin : (a, b) ∈ elements E) by (apply HE; auto).
      rewrite Hnil in Hin. by apply elem_of_nil in Hin. }
    rewrite Hfirst.
    apply CycleError_first_least in Hfirst as [Hin Hleast].
    assert (first = a) as ->.
    { apply Hsrc in Hin as [->| ->]; [done|].
      destruct Hab. apply (anti_symm node_le); [done|].
      apply Hleast, Hsrc. auto. }
    assert (CycleError_sinks (elements E) !! a = Some b) as ->.
    { apply CycleError_sinks_greatest. split; [apply HE; auto|].
      intros t' [[_ ->]|[[? _]|[? _]]]%HE; done. }
    assert (Hb : CycleError_sinks (elements E) !! b = Some c).
    { apply CycleError_sinks_greatest. split; [apply HE; auto|].
      intros t' [[? _]|[[_ ->]|[_ ->]]]%HE; done. }
    assert (Hc : CycleError_sinks (elements E) !! c = None).
    { apply not_elem_of_dom.
      rewrite dom_CycleError_sinks, elem_of_list_to_set, Hsrc. tauto. }
    rewrite walk_step, decide_False, Hb by done.
    rewrite walk_step, decide_False, Hc by done. done.
Qed.

End walk_loop.

Lemma CycleError_cycle_simple_witness :
  CycleError_cycle 5 (elements doc_residual) = Some (Return ["c"; "d"]) ∧
  NoDup ["c"; "d"] ∧
  head ["c"; "d"] = CycleError_first (elements doc_residual) ∧
  (∀ v, v ∈ ["c"; "d"] → v ∈ (elements doc_residual).*1) ∧
  length ["c"; "d"] ≤ length (elements doc_residual).
Proof.
  assert (Hc : CycleError_cycle 5 (elements doc_residual)
               = Some (Return ["c"; "d"])) by (vm_compute; reflexivity).
  split; [exact Hc|].
  exact (CycleError_cycle_simple (elements doc_residual) 5 ["c"; "d"] Hc).
Defined.

Lemma reverse_report_never_raises_witness :
  reverse_sort (DAG_add doc_graph ("d", "c"))
  = ([], CycleError (DAG_add doc_graph ("d", "c"))) ∧
  ∀ fuel members e,
    members ≡ₚ elements (DAG_add doc_graph ("d", "c")) →
    CycleError_cycle fuel members ≠ Some (Raise e).
Proof.
  assert (Hr : reverse_sort (DAG_add doc_graph ("d", "c"))
               = ([], CycleError (DAG_add doc_graph ("d", "c"))))
    by (vm_compute; reflexivity).
  split; [exact Hr|].
  exact (reverse_report_never_raises (DAG_add doc_graph ("d", "c")) []
           (DAG_add doc_graph ("d", "c")) Hr).
Defined.

Lemma forward_report_key_error_witness :
  forward_sort ({[ ("a", "b"); ("b", "a"); ("b", "c") ]}
                : gset (string * string))
  = ([], CycleError {[ ("a", "b"); ("b", "a"); ("b", "c") ]}) ∧
  ∀ fuel, 2 ≤ fuel →
    CycleError_cycle fuel
      (elements ({[ ("a", "b"); ("b", "a"); ("b", "c") ]}
                 : gset (string * string)))
    = Some (Raise KeyError).
Proof.
  apply (forward_report_key_error "a" "b" "c");
    [discriminate..|reflexivity|reflexivity].
Defined.

(** ** The keywords of DAG.topsort *)

Section keywords.
Context `{Countable K}.

(** On keywords that are all different, [pop] hands back what a lookup
    of the key finds and leaves the other keywords in their order. *)
Lemma kwargs_pop_spec {V} (kwargs : list (string * V)) key (d : V) :
  NoDup kwargs.*1 →
  kwargs_pop kwargs key d
  = (default d ((list_to_map kwargs : gmap string V) !! key),
     filter (λ kv, kv.1 ≠ key) kwargs).
Proof.
  unfold kwargs_pop.
  induction kwargs as [|[k v] kwargs IH]; intros Hnd; [done|].
  rewrite fmap_cons in Hnd. apply NoDup_cons in Hnd as [Hk Hnd].
  specialize (IH Hnd). cbn [list_find list_to_map foldr fst snd uncurry].
  cbn [fst] in Hk. destruct (decide (k = key)) as [->|Hne].
  - rewrite lookup_insert_eq. cbn [default delete list_delete].
    rewrite filter_cons_False by (cbn; tauto).
    f_equal. symmetry. apply filter_all, Forall_forall.
    intros [k' v'] Hin. cbn. intros ->. apply Hk.
    apply list_elem_of_fmap. by exists (key, v').
  - rewrite lookup_insert_ne by done.
    rewrite filter_cons_True by done.
    destruct (list_find (λ kv, kv.1 = key) kwargs) as [[i kv]|]; cbn.
    + injection IH as -> <-. done.
    + injection IH as <- <-. done.
Qed.

(** A call of [topsort] with a keyword other than [endpoints] raises
    [TypeError], naming the last such keyword of the call, before it
    looks at the graph; otherwise it builds the sorter with the value of
    [endpoints], or with no endpoints when the keyword is absent. *)
Theorem DAG_topsort_keywords (repr : string → string)
    (σ : gmap loc (gset (K * K))) self start
    (kwargs : list (string * list K)) :
  NoDup kwargs.*1 →
  DAG_topsort_call repr σ self start kwargs
  = match last (filter (λ key, key ≠ "endpoints") kwargs.*1) with
    | Some key =>
        Some (TypeError
                ("topsort got unexpected keyword argument " +:+ repr key))
    | None =>
        Returned <$>
          DAG_topsort σ self start
            (default [] ((list_to_map kwargs : gmap string (list K))
                           !! "endpoints"))
    end.
Proof.
  intros Hnd. unfold DAG_topsort_call. rewrite kwargs_pop_spec by done.
  assert (Hlast : last (filter (λ key, key ≠ "endpoints") kwargs.*1)
                  = fst <$> last (filter (λ kv : string * list K,
                                            kv.1 ≠ "endpoints") kwargs)).
  { rewrite <- fmap_last. f_equal. clear Hnd.
    induction kwargs as [|[k v] kwargs IH]; [done|]. cbn [fmap list_fmap fst].
    destruct (decide (k ≠ "endpoints")).
    - rewrite !filter_cons_True by done. cbn. by rewrite <- IH.
    - rewrite !filter_cons_False by done. done. }
  rewrite Hlast.
  by destruct (last (filter _ kwargs)) as [[key v]|].
Qed.

End keywords.

Lemma DAG_topsort_keywords_witness :
  DAG_topsort_call repr_string {[ 1%positive := doc_graph ]} 1%positive ["c"]
    [("endpoints", ["d"]); ("reverse", []); ("key", [])]
  = match last (filter (λ key, key ≠ "endpoints")
                  [("endpoints", ["d"]); ("reverse", []); ("key", [])].*1) with
    | Some key =>
        Some (TypeError
                ("topsort got unexpected keyword argument "
                 +:+ repr_string key))
    | None =>
        Returned <$>
          DAG_topsort {[ 1%positive := doc_graph ]} 1%positive ["c"]
            (default []
               ((list_to_map
                   [("endpoints", ["d"]); ("reverse", []); ("key", [])]
                 : gmap string (list string)) !! "endpoints"))
    end.
Proof.
  apply (DAG_topsort_keywords repr_string {[ 1%positive := doc_graph ]}
           1%positive ["c"]
           [("endpoints", ["d"]); ("reverse", []); ("key", [])]).
  apply (bool_decide_unpack _). vm_compute. exact I.
Defined.

(** ** The first generation *)

Section first.
Context `{Countable K}.
Implicit Types (G : gset (K * K)).





End first.

(** ** The statements of SqliteDAG *)

Section statements.
Context `{Countable K}.
Implicit Types (db : database (K:=K)) (self : SqliteDAG) (t : table (K:=K)).

Lemma resolve_inv db self t src snk :
  resolve db self = Return (t, src, snk) →
  main db !! table_name self = Some t ∧
  column_of t (source_field self) = Some src ∧
  column_of t (sink_field self) = Some snk.
Proof.
  unfold resolve. destruct (main db !! table_name self) as [t'|]; [|done].
  destruct (column_of t' (source_field self)) as [src'|] eqn:Hsrc; [|done].
  destruct (column_of t' (sink_field self)) as [snk'|] eqn:Hsnk; [|done].
  intros Hr. injection Hr as -> -> ->. done.
Qed.

Lemma resolve_intro db self t src snk :
  main db !! table_name self = Some t →
  column_of t (source_field self) = Some src →
  column_of t (sink_field self) = Some snk →
  resolve db self = Return (t, src, snk).
Proof. unfold resolve. by intros -> -> ->. Qed.

(** [CREATE TABLE IF NOT EXISTS] keeps every table that is there, with
    its rows; a second construction over the same table, under whatever
    field names, returns and changes nothing; a table that it creates is
    empty and has two different columns. *)
Theorem SqliteDAG_init_keeps_tables db table source sink db' self :
  SqliteDAG_init db table source sink = Return (db', self) →
  (∀ name t, main db !! name = Some t → main db' !! name = Some t) ∧
  working_dag db' = working_dag db ∧
  (∀ source' sink',
     ∃ self', SqliteDAG_init db' table source' sink' = Return (db', self')) ∧
  (main db !! table = None →
   source ≠ sink ∧ SqliteDAG_iter db' self = Return []).
Proof.
  unfold SqliteDAG_init.
  destruct (main db !! table) as [t0|] eqn:Htable.
  - intros [= <- <-]. split; [done|]. split; [done|]. split; [|done].
    intros source' sink'. rewrite Htable. by eexists.
  - destruct (decide (source = sink)) as [|Hne]; [done|].
    intros [= <- <-]. cbn. split.
    { intros name t Hname. rewrite lookup_insert_ne; [done|].
      intros <-. by rewrite Htable in Hname. }
    split; [done|]. split.
    { intros source' sink'. rewrite lookup_insert_eq. by eexists. }
    intros _. split; [done|].
    unfold SqliteDAG_iter, resolve. cbn. rewrite lookup_insert_eq.
    unfold column_of. cbn. rewrite decide_True by done.
    rewrite (decide_False (P:=sink = source)) by done.
    by rewrite decide_True by done.
Qed.


(** [nodes()] lists every node once: a value is listed exactly when it
    is the source or the sink of an edge that iterating delivers. *)
Theorem SqliteDAG_nodes_once db self edges :
  SqliteDAG_iter db self = Return edges →
  ∃ ns, SqliteDAG_nodes db self = Return ns ∧ NoDup ns ∧
        (∀ v, v ∈ ns ↔ v ∈ edges.*1 ∨ v ∈ edges.*2) ∧
        (list_to_set ns : gset K)
        = sources_of (list_to_set edges) ∪ sinks_of (list_to_set edges).
Proof.
  unfold SqliteDAG_iter, SqliteDAG_nodes.
  destruct (resolve db self) as [[[t src] snk]|err]; [|done].
  intros [= <-]. eexists. split; [done|]. split; [apply NoDup_remove_dups|].
  assert (Hmem : ∀ v,
            v ∈ remove_dups ((src <$> rows t) ++ (snk <$> rows t)) ↔
            v ∈ ((λ r, (src r, snk r)) <$> rows t).*1 ∨
            v ∈ ((λ r, (src r, snk r)) <$> rows t).*2).
  { intros v. rewrite elem_of_remove_dups, elem_of_app.
    rewrite <- !list_fmap_compose. done. }
  split; [done|].
  apply set_eq. intros v.
  rewrite elem_of_list_to_set, Hmem, elem_of_union, elem_of_sources_of,
    elem_of_sinks_of.
  setoid_rewrite elem_of_list_to_set. rewrite !list_elem_of_fmap.
  split.
  - intros [([a b] & -> & Hab)|([a b] & -> & Hab)]; [left|right]; by eexists.
  - intros [[b Hab]|[a Hab]]; [left|right]; by eexists (_, _).
Qed.

Lemma resolve_update db self t src snk rows' :
  resolve db self = Return (t, src, snk) →
  resolve
    {| main := <[table_name self :=
                   {| source_column := source_column t;
                      sink_column := sink_column t; rows := rows' |}]> (main db);
       working_dag := working_dag db |} self
  = Return ({| source_column := source_column t;
               sink_column := sink_column t; rows := rows' |}, src, snk).
Proof.
  intros (Ht & Hsrc & Hsnk)%resolve_inv. apply resolve_intro.
  - cbn. apply lookup_insert_eq.
  - exact Hsrc.
  - exact Hsnk.
Qed.

(** With two different field names the statement of [add] names both
    columns: the row it writes reads back as the edge, and rows read
    back alike only if they are the same row. *)
Lemma SqliteDAG_add_row db self t src snk e :
  resolve db self = Return (t, src, snk) →
  source_field self ≠ sink_field self →
  ∃ row,
    SqliteDAG_add db self e
    = AddReturn
        {| main := <[table_name self :=
                       {| source_column := source_column t;
                          sink_column := sink_column t;
                          rows := filter (λ r, r ≠ row) (rows t) ++ [row] |}]>
                     (main db);
           working_dag := working_dag db |} ∧
    (src row, snk row) = e ∧
    ∀ r r', (src r, snk r) = (src r', snk r') → r = r'.
Proof.
  intros Hres Hne. unfold SqliteDAG_add. rewrite Hres.
  apply resolve_inv in Hres as (_ & Hsrc & Hsnk).
  unfold column_of in Hsrc, Hsnk.
  destruct (decide (source_field self = source_column t)) as [Hs|Hs];
    destruct (decide (sink_field self = source_column t)) as [Hk|Hk].
  - destruct Hne. congruence.
  - destruct (decide (sink_field self = sink_column t)); [|done].
    injection Hsrc as <-. injection Hsnk as <-.
    exists (e.1, e.2). split; [done|]. split; [by destruct e|].
    intros [a b] [a' b']. cbn. congruence.
  - destruct (decide (source_field self = sink_column t)); [|done].
    injection Hsrc as <-. injection Hsnk as <-.
    exists (e.2, e.1). split; [done|]. split; [by destruct e|].
    intros [a b] [a' b']. cbn. congruence.
  - destruct (decide (source_field self = sink_column t)); [|done].
    destruct (decide (sink_field self = sink_column t)); [|done].
    destruct Hne. congruence.
Qed.

(** [add] and [discard] on a table do to the edges that iterating
    delivers what [DAG.add] and [DAG.discard] do to the set; no edge is
    ever delivered twice if none was before. *)
Theorem SqliteDAG_add_discard_refine db self edges e :
  SqliteDAG_iter db self = Return edges →
  source_field self ≠ sink_field self →
  (∃ db1 edges1,
     SqliteDAG_add db self e = AddReturn db1 ∧
     SqliteDAG_iter db1 self = Return edges1 ∧
     list_to_set edges1 = DAG_add (list_to_set edges) e ∧
     (NoDup edges → NoDup edges1)) ∧
  (∃ db2 edges2,
     SqliteDAG_discard db self e = Return db2 ∧
     SqliteDAG_iter db2 self = Return edges2 ∧
     list_to_set edges2 = DAG_discard (list_to_set edges) e ∧
     (NoDup edges → NoDup edges2)).
Proof.
  intros Hiter Hne. unfold SqliteDAG_iter in Hiter.
  destruct (resolve db self) as [[[t src] snk]|err] eqn:Hres; [|done].
  injection Hiter as <-.
  destruct (SqliteDAG_add_row db self t src snk e Hres Hne)
    as (row & Hadd & Hrow & Hinj).
  assert (Hinj' : Inj (=) (=) (λ r, (src r, snk r))).
  { intros r r'. apply Hinj. }
  split.
  - eexists _, _. split; [exact Hadd|].
    unfold SqliteDAG_iter. rewrite (resolve_update _ _ _ _ _ _ Hres).
    split; [done|]. cbn [rows]. split.
    + apply set_eq. intros x. unfold DAG_add.
      rewrite elem_of_list_to_set, fmap_app, elem_of_app, elem_of_union,
        elem_of_list_to_set, elem_of_singleton. cbn.
      rewrite list_elem_of_singleton, Hrow, !list_elem_of_fmap. split.
      * intros [(r & -> & [_ Hr]%list_elem_of_filter)| ->]; [left|by right].
        by exists r.
      * intros [(r & -> & Hr)| ->]; [|by right].
        destruct (decide (r = row)) as [->|Hrr]; [by right|left].
        exists r. split; [done|]. by apply list_elem_of_filter.
    + intros Hnd%NoDup_fmap_1. apply NoDup_fmap_2; [done|].
      apply NoDup_app. split; [by apply NoDup_filter|]. split.
      * intros r [Hr _]%list_elem_of_filter ->%list_elem_of_singleton. done.
      * apply NoDup_singleton.
  - unfold SqliteDAG_discard. rewrite Hres. eexists _, _. split; [done|].
    unfold SqliteDAG_iter. rewrite (resolve_update _ _ _ _ _ _ Hres).
    split; [done|]. cbn [rows]. split.
    + apply set_eq. intros x. unfold DAG_discard.
      rewrite elem_of_list_to_set, elem_of_difference, elem_of_list_to_set,
        elem_of_singleton, !list_elem_of_fmap. split.
      * intros (r & -> & [Hr Hin]%list_elem_of_filter).
        split; [by exists r|]. intros <-. by apply Hr.
      * intros [(r & -> & Hin) Hx]. exists r. split; [done|].
        apply list_elem_of_filter. split; [|done].
        intros [H1 H2]. apply Hx. destruct e. cbn in *. by subst.
    + intros Hnd%NoDup_fmap_1. apply NoDup_fmap_2; [done|].
      by apply NoDup_filter.
Qed.

(** The field names of a [SqliteDAG] that name one and the same column
    make [add] fail on the [NOT NULL] of the other column. *)
Lemma SqliteDAG_add_one_column db self t src snk e :
  resolve db self = Return (t, src, snk) →
  source_field self = sink_field self →
  SqliteDAG_add db self e = AddIntegrityError "NOT NULL constraint failed".
Proof.
  intros Hres Heq. unfold SqliteDAG_add. rewrite Hres, Heq.
  by destruct (decide (sink_field self = source_column t)).
Qed.

(** ** The working table of SqliteDAG.topsort *)

Lemma sql_loop_head_main db w : main (sql_loop_head db w).1.1 = main db.
Proof. unfold sql_loop_head. by repeat case_decide. Qed.

Lemma create_working_main db self db' :
  create_working db self = Return db' →
  main db' = main db ∧ working_dag db = None ∧ working_dag db' = Some [].
Proof.
  unfold create_working. destruct (working_dag db); [done|].
  case_decide; [|done]. by intros [= <-].
Qed.

Lemma copy_edges_main db self db' :
  copy_edges db self = Return db' →
  main db' = main db ∧ is_Some (working_dag db').
Proof.
  unfold copy_edges. destruct (working_dag db); [|done].
  destruct (resolve db self) as [[[t src] snk]|]; [|done].
  intros [= <-]. split; [done|]. by eexists.
Qed.

Lemma add_leaves_main db self db' :
  add_leaves db self = Return db' →
  main db' = main db ∧ is_Some (working_dag db').
Proof.
  unfold add_leaves. destruct (working_dag db); [|done].
  destruct (main db !! "DAG") as [d|]; [|done].
  destruct (column_of d (sink_field self)); [|done].
  intros [= <-]. split; [done|]. by eexists.
Qed.

(** No call of [next] on the generator of [topsort] writes to an edge
    table: whatever it yields or raises, iterating over any table gives
    afterwards what it gave before. *)
Theorem SqliteDAG_topsort_keeps_tables db self st :
  main (SqliteDAG_topsort_next db self st).1.1 = main db ∧
  ∀ self', SqliteDAG_iter (SqliteDAG_topsort_next db self st).1.1 self'
           = SqliteDAG_iter db self'.
Proof.
  assert (Hmain : main (SqliteDAG_topsort_next db self st).1.1 = main db).
  { destruct st; cbn [SqliteDAG_topsort_next]; [| |done].
    - destruct (create_working db self) as [db1|] eqn:H1; [|done].
      apply create_working_main in H1 as (H1 & _ & _).
      destruct (copy_edges db1 self) as [db2|] eqn:H2; [|done].
      apply copy_edges_main in H2 as [H2 _].
      destruct (add_leaves db2 self) as [db3|] eqn:H3; [|by rewrite <- H1, <- H2].
      apply add_leaves_main in H3 as [H3 _].
      destruct (working_dag db3) as [w|]; [|cbn; congruence].
      rewrite sql_loop_head_main. congruence.
    - destruct (working_dag db) as [w|]; [|done].
      apply sql_loop_head_main. }
  split; [done|]. intros self'. unfold SqliteDAG_iter, resolve.
  by rewrite Hmain.
Qed.

(** [WORKING_DAG] outlives a sort that is not pulled to its end, and a
    sort whose set-up fails after the table was created; as long as it
    is there, every new sort on the connection fails at once.  A sort
    pulled to its end, completed or not, drops it. *)
Theorem WORKING_DAG_lifecycle db self db' st' ev :
  working_dag db = None →
  SqliteDAG_topsort_next db self SqlNotStarted = (db', st', ev) →
  match ev with
  | SqlYield _ => st' = SqlSuspended ∧ is_Some (working_dag db')
  | SqlStopIteration | SqlRaiseCycleError _ =>
      st' = SqlFinished ∧ working_dag db' = None
  | SqlRaise e =>
      st' = SqlFinished ∧
      (working_dag db' = None ↔
       e = OperationalError "duplicate column name")
  end ∧
  (is_Some (working_dag db') →
   ∀ self2,
     SqliteDAG_topsort_next db' self2 SqlNotStarted
     = (db', SqlFinished,
        SqlRaise (OperationalError "table WORKING_DAG already exists"))) ∧
  (∀ db1 db2 st2 ev2,
     is_Some (working_dag db1) →
     SqliteDAG_topsort_next db1 self SqlSuspended = (db2, st2, ev2) →
     match ev2 with
     | SqlYield _ => st2 = SqlSuspended ∧ is_Some (working_dag db2)
     | SqlStopIteration | SqlRaiseCycleError _ =>
         st2 = SqlFinished ∧ working_dag db2 = None
     | SqlRaise _ => False
     end).
Proof.
  intros Hnone Hnext.
  assert (Hhead : ∀ (d : database (K:=K)) w d2 s2 e2,
            sql_loop_head d w = (d2, s2, e2) →
            match e2 with
            | SqlYield _ => s2 = SqlSuspended ∧ is_Some (working_dag d2)
            | SqlStopIteration | SqlRaiseCycleError _ =>
                s2 = SqlFinished ∧ working_dag d2 = None
            | SqlRaise _ => False
            end).
  { intros d w d2 s2 e2. unfold sql_loop_head.
    repeat case_decide; intros [= <- <- <-]; cbn; eauto. }
  split; [|split].
  - cbn [SqliteDAG_topsort_next] in Hnext.
    unfold create_working in Hnext. rewrite Hnone in Hnext.
    case_decide.
    2:{ injection Hnext as <- <- <-. split; [done|]. by split. }
    destruct (copy_edges _ self) as [db2|err] eqn:H2.
    2:{ injection Hnext as <- <- <-. split; [done|]. cbn. split; [done|].
        intros ->. unfold copy_edges, resolve in H2. cbn in H2.
        repeat case_match; simplify_eq. }
    destruct (add_leaves db2 self) as [db3|err] eqn:H3.
    2:{ injection Hnext as <- <- <-. split; [done|].
        apply copy_edges_main in H2 as [_ [w Hw]]. rewrite Hw.
        split; [done|]. intros ->. unfold add_leaves in H3.
        repeat case_match; simplify_eq. }
    apply add_leaves_main in H3 as [_ [w Hw]]. rewrite Hw in Hnext.
    specialize (Hhead _ _ _ _ _ Hnext). destruct ev; try done.
  - intros [w Hw] self2. cbn [SqliteDAG_topsort_next].
    unfold create_working. by rewrite Hw.
  - intros db1 db2 st2 ev2 [w Hw]. cbn [SqliteDAG_topsort_next].
    rewrite Hw. apply Hhead.
Qed.

End statements.

Lemma SqliteDAG_init_keeps_tables_witness :
  (∀ name t, main edges_db !! name = Some t →
             main edges_db !! name = Some t) ∧
  working_dag edges_db = working_dag edges_db ∧
  (∀ source' sink',
     ∃ self', SqliteDAG_init edges_db "edges" source' sink'
              = Return (edges_db, self')) ∧
  (main edges_db !! "edges" = None →
   "source" ≠ "sink" ∧ SqliteDAG_iter edges_db edges_dag = Return []).
Proof.
  apply (SqliteDAG_init_keeps_tables edges_db "edges" "source" "sink"
           edges_db edges_dag).
  reflexivity.
Defined.


Lemma SqliteDAG_nodes_once_witness :
  ∃ ns, SqliteDAG_nodes doc_db doc_dag = Return ns ∧ NoDup ns ∧
        (∀ v, v ∈ ns ↔ v ∈ [("a", "b"); ("b", "d"); ("a", "c"); ("c", "d")].*1
                      ∨ v ∈ [("a", "b"); ("b", "d"); ("a", "c"); ("c", "d")].*2) ∧
        (list_to_set ns : gset string)
        = sources_of (list_to_set
                        [("a", "b"); ("b", "d"); ("a", "c"); ("c", "d")])
          ∪ sinks_of (list_to_set
                        [("a", "b"); ("b", "d"); ("a", "c"); ("c", "d")]).
Proof.
  apply (SqliteDAG_nodes_once doc_db doc_dag
           [("a", "b"); ("b", "d"); ("a", "c"); ("c", "d")]).
  reflexivity.
Defined.

Lemma SqliteDAG_add_discard_refine_witness :
  (∃ db1 edges1,
     SqliteDAG_add edges_db edges_dag ("b", "c") = AddReturn db1 ∧
     SqliteDAG_iter db1 edges_dag = Return edges1 ∧
     list_to_set edges1 = DAG_add (list_to_set [("a", "b")]) ("b", "c") ∧
     (NoDup [("a", "b")] → NoDup edges1)) ∧
  (∃ db2 edges2,
     SqliteDAG_discard edges_db edges_dag ("b", "c") = Return db2 ∧
     SqliteDAG_iter db2 edges_dag = Return edges2 ∧
     list_to_set edges2 = DAG_discard (list_to_set [("a", "b")]) ("b", "c") ∧
     (NoDup [("a", "b")] → NoDup edges2)).
Proof.
  apply (SqliteDAG_add_discard_refine edges_db edges_dag [("a", "b")]
           ("b", "c")).
  - reflexivity.
  - discriminate.
Defined.

Lemma WORKING_DAG_lifecycle_witness :
  ∃ db' st' ev,
    SqliteDAG_topsort_next doc_db doc_dag SqlNotStarted = (db', st', ev) ∧
    ev = SqlYield {[ "a" ]} ∧ st' = SqlSuspended ∧
    is_Some (working_dag db') ∧
    ∀ self2,
      SqliteDAG_topsort_next db' self2 SqlNotStarted
      = (db', SqlFinished,
         SqlRaise (OperationalError "table WORKING_DAG already exists")).
Proof.
  destruct (SqliteDAG_topsort_next doc_db doc_dag SqlNotStarted)
    as [[db' st'] ev] eqn:Hnext.
  exists db', st', ev. split; [reflexivity|].
  assert (Hev : ev = SqlYield {[ "a" ]}).
  { apply (f_equal snd) in Hnext. cbn [snd] in Hnext. rewrite <- Hnext.
    vm_compute. reflexivity. }
  split; [exact Hev|].
  destruct (WORKING_DAG_lifecycle doc_db doc_dag db' st' ev eq_refl Hnext)
    as (Hfirst & Hblock & _).
  rewrite Hev in Hfirst. destruct Hfirst as [Hst Hw].
  split; [exact Hst|]. split; [exact Hw|]. exact (Hblock Hw).
Defined.

(** ** Quoting of identifiers *)

Lemma replace_backtick_inj s1 :
  ∀ s2, replace_backtick s1 +:+ "`" = replace_backtick s2 +:+ "`" → s1 = s2.
Proof.
  induction s1 as [|c1 s1 IH]; intros [|c2 s2]; cbn; [done| | |].
  - destruct (Ascii.eqb_spec c2 "`"%char) as [->|Hc2]; cbn; [done|].
    intros [= <-]. done.
  - destruct (Ascii.eqb_spec c1 "`"%char) as [->|Hc1]; cbn; [done|].
    intros [= ->]. done.
  - destruct (Ascii.eqb_spec c1 "`"%char) as [->|Hc1];
      destruct (Ascii.eqb_spec c2 "`"%char) as [->|Hc2]; cbn.
    + intros [= Heq]. by rewrite (IH s2 Heq).
    + intros [= <-]. done.
    + intros [= ->]. done.
    + intros [= -> Heq]. by rewrite (IH s2 Heq).
Qed.

(** Different names never format to the same identifier: the three
    values of [properties()] determine the table and the two fields. *)
Theorem SqliteDAG_properties_inj (self1 self2 : SqliteDAG) :
  SqliteDAG_properties self1 = SqliteDAG_properties self2 → self1 = self2.
Proof.
  destruct self1 as [t1 s1 k1], self2 as [t2 s2 k2].
  unfold SqliteDAG_properties, backquote. cbn.
  intros [= Ht%replace_backtick_inj Hs%replace_backtick_inj
            Hk%replace_backtick_inj].
  by subst.
Qed.

Lemma string_app_nil (t : string) : "" +:+ t = t.
Proof. reflexivity. Qed.

Lemma string_app_cons c (s t : string) :
  String c s +:+ t = String c (s +:+ t).
Proof. reflexivity. Qed.

Lemma string_app_assoc (s t u : string) : (s +:+ t) +:+ u = s +:+ (t +:+ u).
Proof.
  induction s as [|c s IH]; [done|]. by rewrite !string_app_cons, IH.
Qed.

Lemma read_quoted_replace name rest :
  (∀ rest', rest ≠ String "`"%char rest') →
  read_quoted (replace_backtick name +:+ String "`"%char rest)
  = Some (name, rest).
Proof.
  intros Hrest. induction name as [|c name IH]; cbn [replace_backtick].
  - rewrite string_app_nil. cbn [read_quoted]. rewrite Ascii.eqb_refl.
    destruct rest as [|c' rest']; [done|].
    destruct (Ascii.eqb_spec c' "`"%char) as [->|Hc']; [|done].
    by destruct (Hrest rest').
  - destruct (Ascii.eqb_spec c "`"%char) as [->|Hc].
    + rewrite 2!string_app_cons. cbn [read_quoted]. rewrite Ascii.eqb_refl.
      cbv beta iota. by rewrite IH.
    + rewrite string_app_cons. cbn [read_quoted].
      destruct (Ascii.eqb_spec c "`"%char) as [|_]; [done|].
      by rewrite IH.
Qed.

(** A formatted identifier is read back as the name it was made from,
    whatever backticks the name holds, and the statement goes on right
    after it. *)
Theorem backquote_read_back name rest :
  (∀ rest', rest ≠ String "`"%char rest') →
  read_identifier (backquote name +:+ rest) = Some (name, rest).
Proof.
  intros Hrest. unfold backquote, read_identifier.
  rewrite string_app_assoc, string_app_cons, string_app_nil.
  rewrite Ascii.eqb_refl, string_app_assoc.
  change ("`" +:+ rest) with (String "`"%char rest).
  by apply read_quoted_replace.
Qed.

Lemma SqliteDAG_properties_inj_witness :
  {| table_name := "a`b"; source_field := "source"; sink_field := "sink" |}
  = {| table_name := "a`b"; source_field := "source"; sink_field := "sink" |}.
Proof.
  apply (SqliteDAG_properties_inj
           {| table_name := "a`b"; source_field := "source";
              sink_field := "sink" |}
           {| table_name := "a`b"; source_field := "source";
              sink_field := "sink" |}).
  reflexivity.
Defined.

Lemma backquote_read_back_witness :
  read_identifier (backquote "a`b" +:+ "(source)") = Some ("a`b", "(source)").
Proof.
  apply (backquote_read_back "a`b" "(source)"). intros rest'. discriminate.
Defined.

(** ** SqliteDAG.topsort over a table called DAG *)

Section refinement.
Context `{Countable K}.
Implicit Types (db : database (K:=K)) (self : SqliteDAG)
  (w : list (working_row (K:=K))) (G : gset (K * K)) (r : gset K).

(** What ties the rows of [WORKING_DAG] to the edge set of the sorter
    in memory: the rows with [leaf = 0] are the edges, and every sink
    has a row of its own. *)
Lemma sql_not_in_sinks w G x :
  (∀ row, row ∈ w → w_leaf row = 0%Z →
          ∃ b, w_sink row = Some b ∧ (w_source row, b) ∈ G) →
  (∀ a b, (a, b) ∈ G →
          ∃ row, row ∈ w ∧ w_leaf row = 0%Z ∧
                 w_source row = a ∧ w_sink row = Some b) →
  sql_not_in x (real_sinks w) ↔ x ∉ sinks_of G.
Proof.
  intros HR1 HR2. unfold sql_not_in, real_sinks.
  rewrite !list_elem_of_fmap, elem_of_sinks_of. split.
  - intros Hnot (a & Hax). apply Hnot. left.
    destruct (HR2 a x Hax) as (row & Hrow & Hleaf & _ & Hsink).
    exists row. split; [done|]. by apply list_elem_of_filter.
  - intros Hx [(row & Hsink & [Hleaf Hrow]%list_elem_of_filter)
              |(row & Hsink & [Hleaf Hrow]%list_elem_of_filter)].
    + destruct (HR1 row Hrow Hleaf) as (b & Hb & Hedge).
      apply Hx. exists (w_source row). congruence.
    + destruct (HR1 row Hrow Hleaf) as (b & Hb & _). congruence.
Qed.

Lemma elem_of_select_no_incoming w G v :
  (∀ x, sql_not_in x (real_sinks w) ↔ x ∉ sinks_of G) →
  v ∈ select_no_incoming w ↔
  (∃ row, row ∈ w ∧ w_source row = v) ∧ v ∉ sinks_of G.
Proof.
  intros Hnot. unfold select_no_incoming.
  rewrite elem_of_list_to_set, list_elem_of_fmap. split.
  - intros (row & -> & [Hsel Hrow]%list_elem_of_filter).
    split; [by exists row|]. by apply Hnot.
  - intros [(row & Hrow & <-) Hv]. exists row. split; [done|].
    apply list_elem_of_filter. split; [|done]. by apply Hnot.
Qed.

Lemma elem_of_delete_no_incoming w G row :
  (∀ x, sql_not_in x (real_sinks w) ↔ x ∉ sinks_of G) →
  row ∈ delete_no_incoming w ↔ row ∈ w ∧ w_source row ∈ sinks_of G.
Proof.
  intros Hnot. unfold delete_no_incoming.
  rewrite list_elem_of_filter, Hnot.
  destruct (decide (w_source row ∈ sinks_of G)); tauto.
Qed.

Lemma elem_of_select_cycle w G a b :
  (∀ row, row ∈ w → w_leaf row = 0%Z →
          ∃ b, w_sink row = Some b ∧ (w_source row, b) ∈ G) →
  (∀ a b, (a, b) ∈ G →
          ∃ row, row ∈ w ∧ w_leaf row = 0%Z ∧
                 w_source row = a ∧ w_sink row = Some b) →
  (a, b) ∈ select_cycle w ↔ (a, b) ∈ G.
Proof.
  intros HR1 HR2. unfold select_cycle. rewrite list_elem_of_omap. split.
  - intros (row & [Hleaf Hrow]%list_elem_of_filter & Hsome).
    destruct (HR1 row Hrow Hleaf) as (b' & Hb' & Hedge).
    rewrite Hb' in Hsome. cbn in Hsome. by injection Hsome as <- <-.
  - intros Hab. destruct (HR2 a b Hab) as (row & Hrow & Hleaf & <- & Hb).
    exists row. split; [by apply list_elem_of_filter|]. by rewrite Hb.
Qed.

(** The loop over the rows yields what the loop in memory yields, and
    ends as it ends. *)
Lemma sql_loop_peel_loop fuel :
  ∀ G r w,
    (∀ row, row ∈ w → w_leaf row = 0%Z →
            ∃ b, w_sink row = Some b ∧ (w_source row, b) ∈ G) →
    (∀ a b, (a, b) ∈ G →
            ∃ row, row ∈ w ∧ w_leaf row = 0%Z ∧
                   w_source row = a ∧ w_sink row = Some b) →
    (∀ v, v ∈ sinks_of G → ∃ row, row ∈ w ∧ w_source row = v) →
    r = select_no_incoming w →
    ∃ e, sql_loop fuel w = ((peel_loop peel_forward fuel G r).1, e) ∧
         sort_end_of_sql e = Some (peel_loop peel_forward fuel G r).2.
Proof.
  induction fuel as [|fuel IH]; intros G r w HR1 HR2 HR5 Hr.
  { exists SqlOutOfFuel. done. }
  pose proof (sql_not_in_sinks w G) as Hnot.
  assert (Hnot' : ∀ x, sql_not_in x (real_sinks w) ↔ x ∉ sinks_of G).
  { intros x. by apply Hnot. }
  clear Hnot. cbn [sql_loop peel_loop]. rewrite <- Hr.
  destruct (decide (r = ∅)) as [Hempty|Hnonempty].
  - cbn [fst snd].
    assert (Hcyc : (list_to_set (select_cycle w) : gset (K * K)) = G).
    { apply set_eq. intros [a b]. rewrite elem_of_list_to_set.
      by apply elem_of_select_cycle. }
    destruct (decide (select_cycle w = [])) as [Hnil|Hcons].
    + exists SqlCompleted. split; [done|]. cbn.
      rewrite decide_True; [done|]. rewrite <- Hcyc, Hnil. done.
    + exists (SqlCycleError (select_cycle w)). split; [done|]. cbn.
      rewrite decide_False; [by rewrite Hcyc|].
      intros HG. apply Hcons. rewrite HG in Hcyc.
      destruct (select_cycle w) as [|x l]; [done|].
      assert (Hx : x ∈ (list_to_set (x :: l) : gset (K * K))).
      { apply elem_of_list_to_set. by left. }
      rewrite Hcyc in Hx. by apply not_elem_of_empty in Hx.
  - pose proof (elem_of_peel_forward_graph G r) as HG'.
    pose proof (elem_of_peel_forward_ready G r) as Hr'.
    destruct (peel_forward G r) as [G' r']. cbn [fst snd] in HG', Hr'.
    assert (Hsel : ∀ v, v ∈ r ↔
              (∃ row, row ∈ w ∧ w_source row = v) ∧ v ∉ sinks_of G).
    { intros v. rewrite Hr. by apply elem_of_select_no_incoming. }
    assert (Hdel : ∀ row, row ∈ delete_no_incoming w ↔
              row ∈ w ∧ w_source row ∈ sinks_of G).
    { intros row. by apply elem_of_delete_no_incoming. }
    assert (Hkeep : ∀ a b, (a, b) ∈ G → a ∈ sinks_of G ↔ a ∉ r).
    { intros a b Hab. rewrite Hsel. split; [tauto|].
      intros Hna. destruct (decide (a ∈ sinks_of G)); [done|].
      destruct Hna. split; [|done].
      destruct (HR2 a b Hab) as (row & Hrow & _ & Hsrc & _).
      by exists row. }
    assert (HR1' : ∀ row, row ∈ delete_no_incoming w → w_leaf row = 0%Z →
              ∃ b, w_sink row = Some b ∧ (w_source row, b) ∈ G').
    { intros row [Hrow Hsrc]%Hdel Hleaf.
      destruct (HR1 row Hrow Hleaf) as (b & Hb & Hedge).
      exists b. split; [done|]. apply HG'. split; [done|].
      by apply (Hkeep _ _ Hedge). }
    assert (HR2' : ∀ a b, (a, b) ∈ G' →
              ∃ row, row ∈ delete_no_incoming w ∧ w_leaf row = 0%Z ∧
                     w_source row = a ∧ w_sink row = Some b).
    { intros a b [Hab Hna]%HG'. cbn in Hna.
      destruct (HR2 a b Hab) as (row & Hrow & Hleaf & Hsrc & Hsink).
      exists row. split; [|done]. apply Hdel. split; [done|].
      rewrite Hsrc. by apply (Hkeep _ _ Hab). }
    assert (Hsub : ∀ v, v ∈ sinks_of G' → v ∈ sinks_of G).
    { intros v (u & [Huv _]%HG')%elem_of_sinks_of.
      apply elem_of_sinks_of. by exists u. }
    assert (HR5' : ∀ v, v ∈ sinks_of G' →
              ∃ row, row ∈ delete_no_incoming w ∧ w_source row = v).
    { intros v Hv%Hsub. destruct (HR5 v Hv) as (row & Hrow & Hsrc).
      exists row. split; [|done]. apply Hdel. by rewrite Hsrc. }
    assert (Hready : r' = select_no_incoming (delete_no_incoming w)).
    { apply set_eq. intros v.
      rewrite (elem_of_select_no_incoming _ G')
        by (intros x; by apply sql_not_in_sinks).
      rewrite Hr'. split.
      - intros [(u & Hu & Huv) Hv]. split; [|done].
        assert (Hvs : v ∈ sinks_of G) by (apply elem_of_sinks_of; by exists u).
        destruct (HR5 v Hvs) as (row & Hrow & Hsrc).
        exists row. split; [|done]. apply Hdel. by rewrite Hsrc.
      - intros [(row & [Hrow Hsrc]%Hdel & <-) Hv]. split; [|done].
        apply elem_of_sinks_of in Hsrc as (u & Hu).
        exists u. split; [|done].
        destruct (decide (u ∈ r)) as [|Hnu]; [done|].
        destruct Hv. apply elem_of_sinks_of. exists u. by apply HG'. }
    destruct (IH G' r' (delete_no_incoming w) HR1' HR2' HR5' Hready)
      as (e & Hloop & Hend).
    rewrite Hloop.
    destruct (peel_loop peel_forward fuel G' r') as [gs e'].
    exists e. done.
Qed.

Lemma sql_exhaust_Suspended fuel :
  ∀ db self w,
    working_dag db = Some w →
    sql_exhaust fuel db self SqlSuspended
    = sql_loop fuel (delete_no_incoming w).
Proof.
  induction fuel as [|fuel IH]; intros db self w Hw; [done|].
  cbn [sql_exhaust sql_loop SqliteDAG_topsort_next]. rewrite Hw.
  unfold sql_loop_head.
  destruct (decide (select_no_incoming (delete_no_incoming w) = ∅)).
  - by destruct (decide (select_cycle (delete_no_incoming w) = [])).
  - by rewrite (IH _ self (delete_no_incoming w)).
Qed.

Lemma working_rows_table (t : table (K:=K)) (src snk : K * K → K) :
  ([] ++ ((λ x, {| w_source := src x; w_sink := Some (snk x);
                   w_leaf := 0 |}) <$> rows t))
  ++ ((λ k, {| w_source := k; w_sink := None; w_leaf := 1 |})
        <$> remove_dups (snk <$> rows t))
  = working_rows ((λ x, (src x, snk x)) <$> rows t).
Proof.
  unfold working_rows. by rewrite <- !list_fmap_compose.
Qed.

Lemma sql_exhaust_NotStarted fuel db self t src snk :
  table_name self = "DAG" →
  working_dag db = None →
  resolve db self = Return (t, src, snk) →
  NoDup [source_field self; sink_field self; "leaf"] →
  sql_exhaust (S fuel) db self SqlNotStarted
  = sql_loop (S fuel) (working_rows ((λ x, (src x, snk x)) <$> rows t)).
Proof.
  intros Hname Hnone Hres Hnd.
  pose proof (resolve_inv _ _ _ _ _ Hres) as (Ht & _ & Hsnk).
  cbn [sql_exhaust SqliteDAG_topsort_next].
  unfold create_working. rewrite Hnone, decide_True by done.
  unfold copy_edges. cbn [working_dag set_working].
  assert (Hres' : resolve (set_working db (Some [])) self
                  = Return (t, src, snk)) by exact Hres.
  rewrite Hres'. unfold add_leaves. cbn [working_dag set_working main].
  rewrite <- Hname, Ht, Hsnk. cbn [working_dag set_working].
  rewrite working_rows_table. cbn [sql_loop]. unfold sql_loop_head.
  set (w := working_rows _).
  destruct (decide (select_no_incoming w = ∅)).
  - by destruct (decide (select_cycle w = [])).
  - by rewrite (sql_exhaust_Suspended fuel _ self w).
Qed.

Lemma working_rows_edges (edges : list (K * K)) :
  let w := working_rows edges in
  let G : gset (K * K) := list_to_set edges in
  (∀ row, row ∈ w → w_leaf row = 0%Z →
          ∃ b, w_sink row = Some b ∧ (w_source row, b) ∈ G) ∧
  (∀ a b, (a, b) ∈ G →
          ∃ row, row ∈ w ∧ w_leaf row = 0%Z ∧
                 w_source row = a ∧ w_sink row = Some b) ∧
  (∀ v, v ∈ sinks_of G → ∃ row, row ∈ w ∧ w_source row = v).
Proof.
  cbn. unfold working_rows. split; [|split].
  - intros row [([a b] & -> & Hab)%list_elem_of_fmap
               |(k & -> & _)%list_elem_of_fmap]%elem_of_app; [|done].
    intros _. exists b. split; [done|]. by apply elem_of_list_to_set.
  - intros a b Hab%elem_of_list_to_set.
    exists {| w_source := a; w_sink := Some b; w_leaf := 0 |}.
    split; [|done]. apply elem_of_app. left.
    apply list_elem_of_fmap. by exists (a, b).
  - intros v (u & Huv%elem_of_list_to_set)%elem_of_sinks_of.
    exists {| w_source := v; w_sink := None; w_leaf := 1 |}.
    split; [|done]. apply elem_of_app. right.
    apply list_elem_of_fmap. exists v. split; [done|].
    apply elem_of_remove_dups, list_elem_of_fmap. by exists (u, v).
Qed.

(** Over a table that is called [DAG], with field names that differ
    from each other and from [leaf], on a connection without a leftover
    working table, the storage-backed sort yields the generations of the
    sort in memory of the same edges and ends as it ends: normally, or
    with [CycleError] on the same residual edges. *)
Theorem SqliteDAG_topsort_refines db self edges :
  table_name self = "DAG" →
  working_dag db = None →
  SqliteDAG_iter db self = Return edges →
  NoDup [source_field self; sink_field self; "leaf"] →
  ∃ e,
    sql_exhaust (enough_fuel (list_to_set edges : gset (K * K))) db self
      SqlNotStarted
    = ((forward_sort (list_to_set edges)).1, e) ∧
    sort_end_of_sql e = Some (forward_sort (list_to_set edges)).2 ∧
    e ≠ SqlOutOfFuel.
Proof.
  intros Hname Hnone Hiter Hnd. unfold SqliteDAG_iter in Hiter.
  destruct (resolve db self) as [[[t src] snk]|err] eqn:Hres; [|done].
  injection Hiter as <-.
  set (edges := (λ x, (src x, snk x)) <$> rows t).
  set (G := (list_to_set edges : gset (K * K))).
  pose proof (forward_sort_terminates G) as Hterm.
  rewrite forward_sort_peel_loop in *. unfold enough_fuel.
  replace (size G + 3) with (S (size G + 2)) by lia.
  rewrite (sql_exhaust_NotStarted _ _ _ _ _ _ Hname Hnone Hres Hnd).
  fold edges.
  destruct (working_rows_edges edges) as (HR1 & HR2 & HR5).
  destruct (sql_loop_peel_loop (S (size G + 2)) G (initial_no_incoming G)
              (working_rows edges) HR1 HR2 HR5) as (e & Hloop & Hend).
  { apply set_eq. intros v.
    rewrite (elem_of_select_no_incoming _ G)
      by (intros x; by apply sql_not_in_sinks).
    rewrite elem_of_initial_no_incoming, elem_of_sources_of. split.
    - intros [[b Hvb] Hv]. split; [|done].
      destruct (HR2 v b Hvb) as (row & Hrow & _ & Hsrc & _). by exists row.
    - intros [(row & Hrow & <-) Hv]. split; [|done].
      unfold working_rows in Hrow.
      apply elem_of_app in Hrow
        as [([a b] & -> & Hab)%list_elem_of_fmap
           |(k & -> & Hk)%list_elem_of_fmap].
      + exists b. by apply elem_of_list_to_set.
      + destruct Hv. cbn. apply elem_of_sinks_of.
        apply elem_of_remove_dups, list_elem_of_fmap in Hk
          as ([a b] & -> & Hab).
        exists a. by apply elem_of_list_to_set. }
  exists e. split; [done|]. split; [done|].
  intros ->. cbn in Hend. by injection Hend as Hend.
Qed.

End refinement.

Lemma SqliteDAG_topsort_refines_witness :
  ∃ e,
    sql_exhaust
      (enough_fuel (list_to_set [("a", "b"); ("b", "d"); ("a", "c"); ("c", "d")]
                    : gset (string * string)))
      doc_db doc_dag SqlNotStarted
    = ((forward_sort
          (list_to_set [("a", "b"); ("b", "d"); ("a", "c"); ("c", "d")])).1, e) ∧
    sort_end_of_sql e
    = Some (forward_sort
              (list_to_set [("a", "b"); ("b", "d"); ("a", "c"); ("c", "d")])).2 ∧
    e ≠ SqlOutOfFuel.
Proof.
  apply (SqliteDAG_topsort_refines doc_db doc_dag
           [("a", "b"); ("b", "d"); ("a", "c"); ("c", "d")]).
  - reflexivity.
  - reflexivity.
  - reflexivity.
  - apply (bool_decide_unpack _). vm_compute. exact I.
Defined.
